(** * equation-fuzzer: a shallow embedding of [EquationFuzzer<NumNumbers>]

    The program of [src/equation-fuzzer.cpp] searches for an assignment of
    [NumNumbers] doubles that makes two expressions equal, by mutating members
    of a growing corpus.  This file embeds the class and [main], and states
    the properties of the search loop over that embedding.

    - [double] is IEEE 754 binary64, taken from the kernel's [SpecFloat]
      (53 bits of precision, [emax = 1024]); arithmetic and comparisons are
      the ones of [SpecFloat], so that NaN, infinities and signed zeros behave
      as they do in the program.
    - The evaluator ([exprtk.hpp]) and the pseudorandom engine with its two
      distributions ([<random>]) are not part of the repository: they are the
      type classes [ExprTk] and [RandomSource].
    - [std::cout] is a list of items; the process can leave through [exit]. *)

From Stdlib Require Import ZArith NArith Lia Bool String Ascii List.
From Stdlib Require Import Floats.SpecFloat.
From stdpp Require Import base list.

Open Scope Z_scope.

(** ** Doubles *)

Module Double.

Definition prec : Z := 53.
Definition emax : Z := 1024.

Definition double : Type := spec_float.

Definition add : double -> double -> double := SFadd prec emax.
Definition sub : double -> double -> double := SFsub prec emax.
Definition abs : double -> double := SFabs.
Definition ltb : double -> double -> bool := SFltb.
Definition leb : double -> double -> bool := SFleb.
Definition eqb : double -> double -> bool := SFeqb.

(** The double nearest to an integer (exact for the small literals used). *)
Definition of_Z (z : Z) : double := binary_normalize prec emax z 0 false.

Definition zero : double := S754_zero false.
Definition one : double := Eval vm_compute in of_Z 1.
Definition nan : double := S754_nan.

(** [!x] on a double: true for [+0.0] and [-0.0], false for NaN. *)
Definition is_zero (x : double) : bool := eqb x zero.

Definition is_nan (x : double) : bool :=
  match x with S754_nan => true | _ => false end.

(** Neither NaN nor an infinity. *)
Definition is_finite (x : double) : bool :=
  match x with S754_zero _ | S754_finite _ _ _ => true | _ => false end.

(** The value [std::modf (x, &z)] returns: the fractional part of [x], with
    the sign of [x].  [<cmath>] is not part of the repository; this follows
    C11 7.12.6.12 and F.10.3.12 (an infinity has fractional part zero, NaN
    gives NaN).  The fraction is left at the exponent of [x] and is not
    renormalised: its only use is as the right operand of [sub], which
    aligns both operands and rounds the exact difference. *)
Definition modf_frac (x : double) : double :=
  match x with
  | S754_nan => S754_nan
  | S754_infinity s => S754_zero s
  | S754_zero s => S754_zero s
  | S754_finite s m e =>
      match e with
      | Zneg k =>
          match Z.pos m mod 2 ^ Z.pos k with
          | Z.pos r => S754_finite s r e
          | _ => S754_zero s
          end
      | _ => S754_zero s
      end
  end.

(** [x] has zero fractional part. *)
Definition integral (x : double) : bool :=
  match modf_frac x with S754_zero _ => true | _ => false end.

(** [x -= std::modf (x, &z)] *)
Definition truncate (x : double) : double := sub x (modf_frac x).

End Double.

Import Double.

(** ** What the program prints *)

(** One [operator<<] on [std::cout] or on a [std::stringstream].  The decimal
    text of a double or of a [size_t] is not expanded. *)
Inductive item : Type :=
| Str (s : string)
| Dbl (d : double)
| Num (n : N)
| Endl.

(** ** The collaborators *)

(** An [exprtk::symbol_table<double>]: the variables in the order they were
    added, each with the value it is bound to.  ([add_constants] belongs to
    the evaluator and is part of [parser_compile].) *)
Definition symbol_table : Type := list (string * double).

(** [exprtk::parser<double>::compile] on an expression registered with a
    symbol table gives the parser's error text or a compiled expression;
    [exprtk::expression<double>::value] evaluates it. *)
Class ExprTk : Type := {
  expression_t : Type;
  parser_compile : symbol_table -> string -> string + expression_t;
  expression_value : expression_t -> double
}.

(** [std::default_random_engine] with the two distributions of the class:
    [unifSizeT] is a default [std::uniform_int_distribution<size_t>],
    [unifDouble] is [std::uniform_real_distribution<double> (-100, 100)].
    [prng_default] is the default-constructed engine. *)
Class RandomSource : Type := {
  Prng : Type;
  prng_default : Prng;
  unifSizeT : Prng -> N * Prng;
  unifDouble : Prng -> double * Prng
}.

(** The contract of [std::uniform_real_distribution (a, b)]: values in
    [[a, b)], here [[-100, 100)]. *)
Definition in_unif_range (d : double) : bool :=
  leb (of_Z (-100)) d && ltb d (of_Z 100).

Definition unifDouble_contract `{RandomSource} : Prop :=
  forall g, in_unif_range (fst (unifDouble g)) = true.

(** ** The class *)

(** [struct { double numbers[NumNumbers]; }], as the list of its
    [NumNumbers] slots. *)
Abbreviation NumStruct := (list double).

(** The members declared [const]. *)
Record Config : Type := {
  round : bool;
  conditions : list string;
  expr1 : string;
  expr2 : string
}.

(** The members that change, the local [diff] of [Fuzz], and the two things
    the process leaves behind: what it printed, and the texts handed to
    [parser.compile], in order. *)
Record State `{RandomSource} : Type := {
  iter : N;
  prng : Prng;
  corpus : list NumStruct;
  diff : option double;
  cout : list item;
  compiled : list string
}.

(** How a call ends: it returns a value, the process leaves through
    [exit (code)], the call has undefined behaviour ([getStatic] on an empty
    corpus), or the fuel given to [getRandomDouble] ran out. *)
Inductive result `{RandomSource} (A : Type) : Type :=
| Ok (a : A) (s : State)
| Exit (code : Z) (s : State)
| Undefined
| OutOfFuel.
Arguments Ok {_ _} a s.
Arguments Exit {_ _} code s.
Arguments Undefined {_ _}.
Arguments OutOfFuel {_ _}.

Definition M `{RandomSource} (A : Type) : Type := State -> result A.

Definition ret `{RandomSource} {A} (a : A) : M A := fun s => Ok a s.

Definition bind `{RandomSource} {A B} (m : M A) (f : A -> M B) : M B :=
  fun s =>
    match m s with
    | Ok a s' => f a s'
    | Exit c s' => Exit c s'
    | Undefined => Undefined
    | OutOfFuel => OutOfFuel
    end.

Notation "'do' x <- m ; k" := (bind m (fun x => k))
  (at level 10, x pattern, m at level 100, k at level 200).
Notation "m ;; k" := (bind m (fun _ => k))
  (at level 100, k at level 200, right associativity).

(** 2^64, the number of values of [size_t]. *)
Definition size_t_modulus : N := 18446744073709551616%N.

Section EquationFuzzer.

Context `{ET : ExprTk} `{RS : RandomSource}.

(** The template parameter, with its [static_assert]. *)
Variable NumNumbers : nat.
Definition NumNumbers_ok : Prop := (0 < NumNumbers <= 26)%nat.

Variable cfg : Config.

(** *** State access *)

Definition upd_prng (g : Prng) (s : State) : State :=
  {| iter := iter s; prng := g; corpus := corpus s; diff := diff s;
     cout := cout s; compiled := compiled s |}.

Definition upd_iter (n : N) (s : State) : State :=
  {| iter := n; prng := prng s; corpus := corpus s; diff := diff s;
     cout := cout s; compiled := compiled s |}.

Definition upd_corpus (c : list NumStruct) (s : State) : State :=
  {| iter := iter s; prng := prng s; corpus := c; diff := diff s;
     cout := cout s; compiled := compiled s |}.

Definition upd_diff (d : option double) (s : State) : State :=
  {| iter := iter s; prng := prng s; corpus := corpus s; diff := d;
     cout := cout s; compiled := compiled s |}.

Definition upd_cout (out : list item) (s : State) : State :=
  {| iter := iter s; prng := prng s; corpus := corpus s; diff := diff s;
     cout := out; compiled := compiled s |}.

Definition upd_compiled (l : list string) (s : State) : State :=
  {| iter := iter s; prng := prng s; corpus := corpus s; diff := diff s;
     cout := cout s; compiled := l |}.

Definition set_prng (g : Prng) : M unit := fun s => Ok tt (upd_prng g s).

(** [iter++] on a [size_t]. *)
Definition incr_iter : M unit := fun s =>
  Ok tt (upd_iter ((iter s + 1) mod size_t_modulus)%N s).

(** [corpus.push_back (ns)] *)
Definition corpus_push_back (ns : NumStruct) : M unit := fun s =>
  Ok tt (upd_corpus (corpus s ++ [ns]) s).

Definition set_diff (d : option double) : M unit := fun s =>
  Ok tt (upd_diff d s).

(** [std::cout << ...] *)
Definition print (out : list item) : M unit := fun s =>
  Ok tt (upd_cout (cout s ++ out) s).

(** A call of [parser.compile] on the text [e]. *)
Definition log_compile (e : string) : M unit := fun s =>
  Ok tt (upd_compiled (compiled s ++ [e]) s).

Definition exit {A} (code : Z) : M A := fun s => Exit code s.

Definition get {A} (f : State -> A) : M A := fun s => Ok (f s) s.

(** *** Random draws *)

Definition draw_size : M N := fun s =>
  let (r, g) := unifSizeT (prng s) in bind (set_prng g) (fun _ => ret r) s.

Definition draw_double : M double := fun s =>
  let (r, g) := unifDouble (prng s) in bind (set_prng g) (fun _ => ret r) s.

(** [getRandomDouble]: draw until the draw is not zero.  [fuel] bounds the
    number of draws. *)
Fixpoint getRandomDouble (fuel : nat) : M double :=
  match fuel with
  | O => fun _ => OutOfFuel
  | S fuel' =>
      do r <- draw_double;
      if is_zero r then getRandomDouble fuel' else ret r
  end.

(** *** Names and text *)

(** [toString (numIndex)]: the one-letter name ['a' + numIndex]. *)
Definition toString (numIndex : nat) : string :=
  String (ascii_of_nat (97 + numIndex)) EmptyString.

Definition slot (ns : NumStruct) (i : nat) : double := nth i ns zero.

(** [toString (ns, separator)], as the items sent to the string stream. *)
Definition toString_ns (ns : NumStruct) (separator : string) : list item :=
  flat_map
    (fun i =>
       [Str (toString i); Str "="; Dbl (slot ns i)]
       ++ (if Nat.eqb i (NumNumbers - 1) then [] else [Str separator]))
    (seq 0 NumNumbers).

Definition toScript (ns : NumStruct) : list item :=
  toString_ns ns (String (ascii_of_nat 10) EmptyString)
  ++ [Str (String (ascii_of_nat 10) EmptyString)]
  ++ [Str (expr1 cfg); Str " == "; Str (expr2 cfg);
      Str (String (ascii_of_nat 10) EmptyString)].

(** *** Evaluation *)

(** The symbol table [calc] builds from its private copy of [ns]. *)
Definition bindings (ns : NumStruct) : symbol_table :=
  map (fun i => (toString i, slot ns i)) (seq 0 NumNumbers).

(** What [calc] prints when [parser.compile] fails. *)
Definition error_report (err expressionStr : string) : list item :=
  [Str "Error: "; Str err; Endl; Str "Expression: "; Str expressionStr; Endl].

Definition calc (expressionStr : string) (ns : NumStruct) : M double :=
  log_compile expressionStr;;
  match parser_compile (bindings ns) expressionStr with
  | inl err => print (error_report err expressionStr);; exit 1
  | inr expression => ret (expression_value expression)
  end.

(** [std::abs (res1 > res2 ? res1 - res2 : res2 - res1)] *)
Definition abs_difference (res1 res2 : double) : double :=
  abs (if ltb res2 res1 then sub res1 res2 else sub res2 res1).

(** [numStructToDiff]: the difference, with [res1] and [res2]. *)
Definition numStructToDiff (ns : NumStruct) : M (double * double * double) :=
  do res1 <- calc (expr1 cfg) ns;
  do res2 <- calc (expr2 cfg) ns;
  incr_iter;;
  ret (abs_difference res1 res2, res1, res2).

(** *** Mutation *)

(** [getStatic]: a copy of a corpus member. *)
Definition getStatic : M NumStruct :=
  do r <- draw_size;
  do c <- get corpus;
  match c with
  | [] => fun _ => Undefined
  | _ :: _ =>
      match c !! N.to_nat (r mod N.of_nat (length c)) with
      | Some ns => ret ns
      | None => fun _ => Undefined
      end
  end.

(** The two mutators. *)
Inductive mutator : Type := AddRandom | SubRandom.

(** The [switch]; [whichMutator] is 0 or 1. *)
Definition mutator_of (whichMutator : N) : mutator :=
  match whichMutator with 0%N => AddRandom | _ => SubRandom end.

(** What one pass of the [for] loop does to [ns] once the slot, the mutator
    and the random double are chosen.  ([alter] leaves a list unchanged
    when the index is outside it; [whichNum < NumNumbers] always.) *)
Definition perturb (whichNum : nat) (mu : mutator) (d : double)
    (ns : NumStruct) : NumStruct :=
  let ns' :=
    match mu with
    | AddRandom => alter (fun x => add x d) whichNum ns
    | SubRandom => alter (fun x => sub x d) whichNum ns
    end in
  if round cfg then alter truncate whichNum ns' else ns'.

(** The body of [for (size_t j = 0; j < 3; j++)]. *)
Definition mutate_step (fuel : nat) (ns : NumStruct) : M NumStruct :=
  do r1 <- draw_size;
  let whichNum := N.to_nat (r1 mod N.of_nat NumNumbers) in
  do r2 <- draw_size;
  let whichMutator := (r2 mod 2)%N in
  do d <- getRandomDouble fuel;
  ret (perturb whichNum (mutator_of whichMutator) d ns).

Fixpoint mutate_for (j : nat) (fuel : nat) (ns : NumStruct) : M NumStruct :=
  match j with
  | O => ret ns
  | S j' => do ns' <- mutate_step fuel ns; mutate_for j' fuel ns'
  end.

(** [mutate]: the [while (true)] returns in its first pass. *)
Definition mutate (fuel : nat) : M NumStruct :=
  do ns <- getStatic;
  mutate_for 3 fuel ns.

(** *** The search loop *)

(** The [for] over the conditions; the value is [doContinue]. *)
Fixpoint test_conditions (cs : list string) (ns : NumStruct) : M bool :=
  match cs with
  | [] => ret false
  | C :: cs' =>
      do v <- calc C ns;
      if negb (eqb v one) then ret true else test_conditions cs' ns
  end.

(** [!diff || (diff && curDiff < *diff)] *)
Definition improves (best : option double) (curDiff : double) : bool :=
  match best with
  | None => true
  | Some d => ltb curDiff d
  end.

Definition progress_report (it : N) (size : nat) (ns : NumStruct)
    (res1 res2 d : double) : list item :=
  [Str "N: "; Num it; Str " ";
   Str "Corp: "; Num (N.of_nat size); Str " ";
   Str "Vars: "] ++ toString_ns ns "," ++ [Str " ";
   Str "Res1: "; Dbl res1; Str " ";
   Str "Res2: "; Dbl res2; Str " ";
   Str "Diff: "; Dbl d; Endl].

Definition solution_report (ns : NumStruct) : list item :=
  [Str "The solution to"; Endl; Endl;
   Str "    "; Str (expr1 cfg); Str " == "; Str (expr2 cfg); Endl; Endl]
  ++ (match conditions cfg with
      | [] => []
      | _ :: _ =>
          [Str "under these conditons:"; Endl; Endl]
          ++ flat_map (fun C => [Str "    "; Str C; Endl]) (conditions cfg)
          ++ [Endl]
      end)
  ++ [Str "is:"; Endl; Endl; Str "    "] ++ toString_ns ns ","
  ++ [Endl; Endl; Str "Script:"; Endl; Endl]
  ++ toScript ns ++ [Endl; Endl].

(** The four ways through one pass of [while (true)] in [Fuzz]:
    the [continue] after a failed condition, the pass that skips the [if],
    the pass through the [if] that does not return, and the [return]. *)
Inductive verdict : Type :=
| ConditionFailed
| NotBetter
| Improved
| Solved.

Definition Fuzz_body (fuel : nat) : M verdict :=
  do ns <- mutate fuel;
  do doContinue <- test_conditions (conditions cfg) ns;
  if doContinue then ret ConditionFailed else
  do (curDiff, res1, res2) <- numStructToDiff ns;
  do best <- get diff;
  if improves best curDiff then
    corpus_push_back ns;;
    set_diff (Some curDiff);;
    do it <- get iter;
    do c <- get corpus;
    print (progress_report it (length c) ns res1 res2 curDiff);;
    if eqb curDiff zero then
      print (solution_report ns);;
      ret Solved
    else ret Improved
  else ret NotBetter.

(** [while (true)], for at most [cycles] passes.  The value is the verdict
    of each pass made, oldest first; the loop is left by [return] exactly
    when the last verdict is [Solved]. *)
Fixpoint Fuzz_loop (cycles : nat) (fuel : nat) : M (list verdict) :=
  match cycles with
  | O => ret []
  | S cycles' =>
      do v <- Fuzz_body fuel;
      match v with
      | Solved => ret [Solved]
      | _ => do vs <- Fuzz_loop cycles' fuel; ret (v :: vs)
      end
  end.

Definition Fuzz (cycles : nat) (fuel : nat) : M (list verdict) :=
  set_diff None;;
  Fuzz_loop cycles fuel.

(** The state the constructor leaves: [corpus.push_back ({})] puts one
    value-initialised [NumStruct] in the corpus. *)
Definition NumStruct_zero : NumStruct := replicate NumNumbers zero.

Definition constructed : State :=
  {| iter := 0%N; prng := prng_default; corpus := [NumStruct_zero];
     diff := None; cout := []; compiled := [] |}.

(** *** Vocabulary of the properties *)

(** The value of the expression [e] at [ns], when [e] compiles. *)
Definition value_at (ns : NumStruct) (e : string) : option double :=
  match parser_compile (bindings ns) e with
  | inl _ => None
  | inr expression => Some (expression_value expression)
  end.

(** The condition [C] compiles and evaluates to exactly [1.0] at [ns]. *)
Definition holds (ns : NumStruct) (C : string) : bool :=
  match value_at ns C with
  | Some v => eqb v one
  | None => false
  end.

(** The filter of the specification: every condition evaluates to exactly
    [1.0]. *)
Definition passes (cs : list string) (ns : NumStruct) : bool :=
  forallb (holds ns) cs.

(** The conditions up to and including the first one that does not hold. *)
Fixpoint examined (ns : NumStruct) (cs : list string) : list string :=
  match cs with
  | [] => []
  | C :: cs' => C :: (if holds ns C then examined ns cs' else [])
  end.

(** The state after the conditions were looked at. *)
Definition filtered (ns : NumStruct) (s : State) : State :=
  upd_compiled (compiled s ++ examined ns (conditions cfg)) s.

(** The state after [numStructToDiff] returned. *)
Definition scored (s : State) : State :=
  upd_iter ((iter s + 1) mod size_t_modulus)%N
    (upd_compiled (compiled s ++ [expr1 cfg; expr2 cfg]) s).

(** The state after the candidate was appended and reported. *)
Definition appended (ns : NumStruct) (res1 res2 d : double) (s : State)
    : State :=
  upd_cout
    (cout s
     ++ progress_report (iter s) (length (corpus s ++ [ns])) ns res1 res2 d)
    (upd_diff (Some d) (upd_corpus (corpus s ++ [ns]) s)).

(** The state after the solution was reported. *)
Definition reported (ns : NumStruct) (s : State) : State :=
  upd_cout (cout s ++ solution_report ns) s.

(** The difference of the specification: [|result1 - result2|]. *)
Definition gap (res1 res2 : double) : double := abs (sub res1 res2).

(** [ns'] is [ns] after [k] passes of the [for] loop of [mutate], each with a
    slot in range and a random double that is not zero and lies in
    [[-100, 100)]. *)
Inductive perturbs : nat -> NumStruct -> NumStruct -> Prop :=
| perturbs_O ns : perturbs O ns ns
| perturbs_S k ns ns' whichNum mu d :
    (whichNum < NumNumbers)%nat ->
    is_zero d = false ->
    in_unif_range d = true ->
    perturbs k (perturb whichNum mu d ns) ns' ->
    perturbs (S k) ns ns'.

(** Starting at [g], one of the next [fuel] draws of [unifDouble] is not
    zero. *)
Fixpoint draws_nonzero (fuel : nat) (g : Prng) : bool :=
  match fuel with
  | O => false
  | S fuel' =>
      let (r, g') := unifDouble g in
      if is_zero r then draws_nonzero fuel' g' else true
  end.

(** Between [s] and [s'] only the engine moved. *)
Definition engine_moved (s s' : State) : Prop := exists g, s' = upd_prng g s.

(** Every slot has zero fractional part. *)
Definition all_integral (ns : NumStruct) : Prop :=
  Forall (fun x => integral x = true) ns.

(** The pass appended its candidate to the corpus. *)
Definition accepted (v : verdict) : bool :=
  match v with
  | Improved | Solved => true
  | ConditionFailed | NotBetter => false
  end.

Definition acceptances (vs : list verdict) : nat :=
  length (List.filter accepted vs).

End EquationFuzzer.

(** ** [main] *)

(** The default argument of the constructor: [const bool round = true]. *)
Definition round_default : bool := true.

(** The constructor's member initialisers for the [const] members. *)
Definition EquationFuzzer (expr1 expr2 : string) (conditions : list string)
    (round : bool) : Config :=
  {| round := round; conditions := conditions;
     expr1 := expr1; expr2 := expr2 |}.

(** [const int NumNumbers = 6] in [main]. *)
Definition main_NumNumbers : nat := 6.

(** What [main] prints with [argc <= 2].  [argv[argc]] is a null pointer:
    with [argc = 0] the text [argv[0]] is null, inserting it puts the
    stream into a failed state, and nothing after ["Usage: "] is written. *)
Definition usage (argv0 : option string) : list item :=
  match argv0 with
  | Some name =>
      [Str "Usage: "; Str name; Str " EXPR1 EXPR2 [CONDITIONS]"; Endl; Endl;
       Str "The program will attempt to resolve variables such that EXPR1 == EXPR2";
       Endl; Endl]
  | None => [Str "Usage: "]
  end.

(** The fuzzer [main] constructs: [F (argv[1], argv[2], conditions)], the
    conditions being [argv[3]] onwards and [round] left to its default. *)
Definition main_fuzzer (argv : list string) : Config :=
  EquationFuzzer (nth 1 argv EmptyString) (nth 2 argv EmptyString)
    (drop 3 argv) round_default.

(** The process before [F] exists. *)
Definition process_start `{RandomSource} : State :=
  {| iter := 0%N; prng := prng_default; corpus := [];
     diff := None; cout := []; compiled := [] |}.

(** [main] on the command line [argv], of [argc = length argv] texts.  The
    value is the status [main] returns, or [None] when [Fuzz] has not
    returned within [cycles] passes: the process is then still in the loop,
    in the state given with it. *)
Definition main `{ExprTk} `{RandomSource} (argv : list string)
    (cycles fuel : nat) : result (option Z) :=
  if (length argv <=? 2)%nat then
    (print (usage (argv !! O));; ret (Some 0)) process_start
  else
    (do vs <- Fuzz main_NumNumbers (main_fuzzer argv) cycles fuel;
     match last vs with
     | Some Solved => ret (Some 0)
     | _ => ret None
     end) (constructed main_NumNumbers).

(** ** Small collaborators to run the program on *)

(** A random source that reads its draws from two scripts and draws [0] and
    [1.0] once a script is used up. *)
Definition scripted (sizes : list N) (doubles : list double) : RandomSource :=
  {| Prng := nat * nat;
     prng_default := (O, O);
     unifSizeT := fun g => (nth (fst g) sizes 0%N, (S (fst g), snd g));
     unifDouble := fun g => (nth (snd g) doubles one, (fst g, S (snd g))) |}.

Definition lookup_var (tbl : symbol_table) (name : string) : option double :=
  match find (fun p => String.eqb (fst p) name) tbl with
  | Some p => Some (snd p)
  | None => None
  end.

(** An evaluator that knows the variables of the symbol table and the texts
    [0], [1] and [0/0], and rejects every other text. *)
Definition small_compile (tbl : symbol_table) (e : string) : string + double :=
  match lookup_var tbl e with
  | Some v => inr v
  | None =>
      if String.eqb e "0" then inr zero
      else if String.eqb e "1" then inr one
      else if String.eqb e "0/0" then inr nan
      else inl "ERR000 - Invalid expression"%string
  end.

Definition small_exprtk : ExprTk :=
  {| expression_t := double;
     parser_compile := small_compile;
     expression_value := fun v => v |}.

(** ** Sample runs *)

(** One variable, [a == 0], no condition. *)
Definition one_variable_cfg (round : bool) : Config :=
  EquationFuzzer "a" "0" [] round.

(** The same in round mode. *)
Definition sample_cfg : Config := one_variable_cfg true.

(** Draws that make the first pass reach [a = 60], the second start from that
    member and reach [a = 120], the third start from the seed and reach
    [a = 3]. *)
Definition sample_source : RandomSource :=
  scripted [0; 0; 0; 0; 0; 1; 0; 1]%N
    [of_Z 50; of_Z 3; of_Z 7; of_Z 50; of_Z 3; of_Z 7].

(** The state of the sample run after [cycles] passes. *)
Definition sample_state (cycles : nat) : @State sample_source :=
  match @Fuzz_loop small_exprtk sample_source 1 sample_cfg cycles 1
          (@constructed sample_source 1) with
  | Ok _ s => s
  | _ => @constructed sample_source 1
  end.

(** The sample run with a first expression the evaluator refuses. *)
Definition broken_cfg : Config := EquationFuzzer "a+" "0" [] true.

(** The state in which the process exits on the first pass of that run. *)
Definition broken_state : @State sample_source :=
  @Build_State sample_source 0%N (7, 3)%nat [[zero]] None
    (error_report "ERR000 - Invalid expression" "a+") ["a+"%string].

(** The same with a condition that never holds in front of it. *)
Definition starved_cfg : Config :=
  EquationFuzzer "a+" "0" ["0"%string] true.


(** A first expression that is NaN everywhere. *)
Definition nan_cfg : Config := EquationFuzzer "0/0" "0" [] true.

(** The state after the first pass of the sample run on it. *)
Definition nan_state : @State sample_source :=
  match @Fuzz_body small_exprtk sample_source 1 nan_cfg 1
          (@constructed sample_source 1) with
  | Ok _ s => s
  | _ => @constructed sample_source 1
  end.

(** [0.5] *)
Definition half : double :=
  Eval vm_compute in binary_normalize prec emax 1 (-1) false.

(** Draws of [0.5]: in round mode the first candidate is [a = 0]. *)
Definition solving_source : RandomSource := scripted [] [half; half; half].

(** The state after the first pass on draws of [0.5]. *)
Definition solved_state : @State solving_source :=
  match @Fuzz_body small_exprtk solving_source 1 sample_cfg 1
          (@constructed solving_source 1) with
  | Ok _ s => s
  | _ => @constructed solving_source 1
  end.

(** [2.5] and [7.5] *)
Definition two_and_a_half : double :=
  Eval vm_compute in binary_normalize prec emax 5 (-1) false.

Definition seven_and_a_half : double :=
  Eval vm_compute in binary_normalize prec emax 15 (-1) false.

(** Draws of [2.5]: in round mode the first candidate is [a = 6], by way of
    2 and 4; without it the candidate is [a = 7.5]. *)
Definition fraction_source : RandomSource :=
  scripted [] [two_and_a_half; two_and_a_half; two_and_a_half].

(** The state after the first pass on draws of [2.5] in round mode. *)
Definition fraction_state : @State fraction_source :=
  match @Fuzz_loop small_exprtk fraction_source 1 sample_cfg 1 1
          (@constructed fraction_source 1) with
  | Ok _ s => s
  | _ => @constructed fraction_source 1
  end.

(** The process of [main] on [a == 0] after two passes on these draws. *)
Definition main_state : @State fraction_source :=
  match @main small_exprtk fraction_source ["prog"; "a"; "0"]%string 2 1 with
  | Ok _ s => s
  | _ => @process_start fraction_source
  end.






(** ** The perturbation steps *)

Section Perturbations.

Context `{RS : RandomSource}.
Variable NumNumbers : nat.
Variable cfg : Config.





End Perturbations.

(** ** Further vocabulary *)

(** A well-formed binary64 value: the mantissa and the exponent of a finite
    one are in canonical form and in range. *)
Definition valid (x : double) : bool := valid_binary prec emax x.

(** The integer a double is, when its value is an integer. *)
Definition integer_value (x : double) : option Z :=
  match x with
  | S754_zero _ => Some 0
  | S754_finite s m (Zneg k) =>
      if Z.pos m mod 2 ^ Z.pos k =? 0
      then Some (cond_Zopp s (Z.pos m / 2 ^ Z.pos k))
      else None
  | S754_finite s m e => Some (cond_Zopp s (Z.pos m) * 2 ^ e)
  | _ => None
  end.

(** The value of a finite double truncated toward zero: the quotient,
    rounded toward zero, of its signed mantissa by the power of two below
    it ([Z.quot] rounds toward zero). *)
Definition integer_part (x : double) : Z :=
  match x with
  | S754_finite s m (Zneg k) => Z.quot (cond_Zopp s (Z.pos m)) (2 ^ Z.pos k)
  | S754_finite s m e => cond_Zopp s (Z.pos m) * 2 ^ e
  | _ => 0
  end.

(** Neither [+0.0] nor [-0.0]. *)
Definition not_zero (x : double) : Prop :=
  match x with S754_zero _ => False | _ => True end.

(** The doubles among the items printed, in order. *)
Definition doubles_of (out : list item) : list double :=
  flat_map (fun it => match it with Dbl d => [d] | _ => [] end) out.

(** The passes of a run that called [numStructToDiff]. *)
Definition evaluations (vs : list verdict) : nat :=
  length (List.filter
            (fun v => match v with ConditionFailed => false | _ => true end)
            vs).

Section Candidates.

Context `{ET : ExprTk}.
Variable NumNumbers : nat.
Variable cfg : Config.

(** One entry of [toString (ns, separator)] with the separator after it. *)
Definition entry (ns : NumStruct) (separator : string) (i : nat)
    : list item :=
  [Str (toString i); Str "="; Dbl (slot ns i); Str separator].

(** The difference [numStructToDiff] computes at [ns], when both expressions
    compile. *)
Definition difference_at (ns : NumStruct) : option double :=
  match value_at NumNumbers ns (expr1 cfg),
        value_at NumNumbers ns (expr2 cfg) with
  | Some res1, Some res2 => Some (abs_difference res1 res2)
  | _, _ => None
  end.

(** [ns] passes the conditions and its difference is [d]. *)
Definition improvement (ns : NumStruct) (d : double) : Prop :=
  passes NumNumbers (conditions cfg) ns = true /\
  difference_at ns = Some d.

(** Later entries are strictly below earlier ones. *)
Definition strictly_decreasing (ds : list double) : Prop :=
  forall i j d d',
    (i < j)%nat -> ds !! i = Some d -> ds !! j = Some d' -> ltb d' d = true.

(** What one accepting pass prints: the progress report of a candidate that
    passes the conditions, with the two results and their difference, and,
    when the difference is zero, the solution report after it. *)
Definition acceptance_report (out : list item) : Prop :=
  exists it size ns res1 res2,
    passes NumNumbers (conditions cfg) ns = true /\
    value_at NumNumbers ns (expr1 cfg) = Some res1 /\
    value_at NumNumbers ns (expr2 cfg) = Some res2 /\
    out = progress_report NumNumbers it size ns res1 res2
            (abs_difference res1 res2)
          ++ (if eqb (abs_difference res1 res2) zero
              then solution_report NumNumbers cfg ns else []).

(** A report of an assignment with integral slots: its progress line,
    with or without the solution report after it. *)
Definition integral_report (out : list item) : Prop :=
  exists it size ns res1 res2 d,
    all_integral ns /\
    (out = progress_report NumNumbers it size ns res1 res2 d \/
     out = progress_report NumNumbers it size ns res1 res2 d
           ++ solution_report NumNumbers cfg ns).

End Candidates.

(** The process searches over integral assignments only: the corpus of [s]
    starts with the zero seed and all its members are integral, and what was
    printed is reports of integral assignments followed by [tail]. *)
Definition integral_search `{ET : ExprTk} `{RS : RandomSource}
    (NumNumbers : nat) (cfg : Config) (tail : list item) (s : State)
    : Prop :=
  (exists members, corpus s = NumStruct_zero NumNumbers :: members) /\
  Forall all_integral (corpus s) /\
  exists reports,
    cout s = concat reports ++ tail /\
    Forall (integral_report NumNumbers cfg) reports.

(** The corpus of [s] is the seed followed by improvements whose differences
    strictly decrease, and the best difference of [s] is the last of them. *)
Definition recorded `{ET : ExprTk} `{RS : RandomSource} (NumNumbers : nat)
    (cfg : Config) (s : State) : Prop :=
  exists members ds,
    corpus s = NumStruct_zero NumNumbers :: members /\
    Forall2 (improvement NumNumbers cfg) members ds /\
    strictly_decreasing ds /\
    diff s = last ds.


(** * Facts about doubles *)

Section Rounding.

(** A shift record that has lost nothing. *)
Local Abbreviation kept m :=
  {| shr_m := m; shr_r := false; shr_s := false |}.

(** [m * 2^e] is an integer. *)
Definition whole (m e : Z) : Prop := 0 <= e \/ (2 ^ (- e) | m).

Lemma iter_pos_nat {A} (f : A -> A) (p : positive) (x : A) :
  SpecFloat.iter_pos f p x = Nat.iter (Pos.to_nat p) f x.
Proof.
  revert x; induction p as [p IH | p IH |]; intros x; cbn [SpecFloat.iter_pos].
  - rewrite !IH, Pos2Nat.inj_xI.
    replace (S (2 * Pos.to_nat p)) with (Pos.to_nat p + S (Pos.to_nat p))%nat by lia.
    now rewrite Nat.iter_add, Nat.iter_succ_r.
  - rewrite !IH, Pos2Nat.inj_xO.
    replace (2 * Pos.to_nat p)%nat with (Pos.to_nat p + Pos.to_nat p)%nat by lia.
    now rewrite Nat.iter_add.
  - reflexivity.
Qed.

Lemma shr_1_nonneg mrs : 0 <= shr_m mrs -> 0 <= shr_m (shr_1 mrs).
Proof.
  destruct mrs as [m r s]; simpl.
  destruct m as [| [p | p |] | p]; simpl; lia.
Qed.

Lemma iter_shr_1_nonneg n mrs :
  0 <= shr_m mrs -> 0 <= shr_m (Nat.iter n shr_1 mrs).
Proof.
  induction n as [| n IH]; simpl; intros Hm; [assumption |].
  apply shr_1_nonneg, IH, Hm.
Qed.

Lemma shr_1_even m : 0 <= m -> (2 | m) -> shr_1 (kept m) = kept (m / 2).
Proof.
  intros Hm [q Hq].
  destruct m as [| [p | p |] | p]; try lia; simpl.
  - reflexivity.
  - f_equal. change (Z.pos p~0) with (2 * Z.pos p).
    rewrite Z.mul_comm, Z.div_mul; lia.
Qed.

Lemma iter_shr_1_exact n m :
  0 <= m -> (2 ^ Z.of_nat n | m) ->
  Nat.iter n shr_1 (kept m) = kept (m / 2 ^ Z.of_nat n).
Proof.
  revert m; induction n as [| n IH]; intros m Hm Hd.
  - simpl. now rewrite Z.div_1_r.
  - rewrite Nat.iter_succ_r.
    rewrite Nat2Z.inj_succ, Z.pow_succ_r in Hd by lia.
    destruct Hd as [q Hq].
    rewrite shr_1_even; [| lia | exists (q * 2 ^ Z.of_nat n); lia].
    assert (Hhalf : m / 2 = q * 2 ^ Z.of_nat n).
    { rewrite Hq.
      replace (q * (2 * 2 ^ Z.of_nat n)) with (q * 2 ^ Z.of_nat n * 2) by lia.
      apply Z.div_mul; lia. }
    rewrite IH.
    + f_equal. rewrite Nat2Z.inj_succ, Z.pow_succ_r by lia.
      rewrite Z.div_div by (try apply Z.pow_pos_nonneg; lia). reflexivity.
    + rewrite Hhalf. assert (0 < 2 ^ Z.of_nat n) by (apply Z.pow_pos_nonneg; lia).
      nia.
    + rewrite Hhalf. exists q; reflexivity.
Qed.

Lemma shr_nonneg mrs e n :
  0 <= shr_m mrs -> 0 <= shr_m (fst (shr mrs e n)).
Proof.
  intros Hm; destruct n as [| p | p]; simpl; try assumption.
  rewrite iter_pos_nat. now apply iter_shr_1_nonneg.
Qed.

Lemma shr_snd mrs e n : snd (shr mrs e n) = e + Z.max 0 n.
Proof. destruct n; simpl; lia. Qed.

(** Shifting an integer right cannot lose anything of it as long as the
    exponent stays below zero. *)
Lemma shr_whole m e n :
  0 <= m -> whole m e ->
  let r := shr (kept m) e n in
  0 <= snd r \/
  (loc_of_shr_record (fst r) = loc_Exact /\ (2 ^ (- snd r) | shr_m (fst r))).
Proof.
  intros Hm Hw r.
  destruct (Z_le_gt_dec 0 (snd r)) as [Hr | Hr]; [now left | right].
  subst r; rewrite shr_snd in Hr |- *.
  destruct Hw as [He | Hd]; [lia |].
  destruct n as [| p | p]; simpl in *.
  - rewrite Z.add_0_r. now split.
  - rewrite iter_pos_nat.
    assert (Hp : 2 ^ (- e) = 2 ^ Z.of_nat (Pos.to_nat p) * 2 ^ (- (e + Z.pos p))).
    { rewrite positive_nat_Z, <- Z.pow_add_r by lia. f_equal; lia. }
    rewrite iter_shr_1_exact.
    + split; [reflexivity |]. simpl.
      destruct Hd as [q Hq]. rewrite Hq, Hp.
      replace (q * (2 ^ Z.of_nat (Pos.to_nat p) * 2 ^ (- (e + Z.pos p))))
        with (q * 2 ^ (- (e + Z.pos p)) * 2 ^ Z.of_nat (Pos.to_nat p)) by lia.
      rewrite Z.div_mul by (apply Z.pow_nonzero; lia).
      exists q; reflexivity.
    + assumption.
    + destruct Hd as [q Hq]. exists (q * 2 ^ (- (e + Z.pos p))). rewrite Hq, Hp. lia.
  - rewrite Z.add_0_r. now split.
Qed.

Lemma round_nearest_even_nonneg m l : 0 <= m -> 0 <= round_nearest_even m l.
Proof.
  intros Hm; destruct l as [| []]; simpl; try lia.
  destruct (Z.even m); lia.
Qed.

Lemma integral_finite s m e :
  integral (S754_finite s m e) = true <-> whole (Z.pos m) e.
Proof.
  unfold integral, whole; simpl.
  destruct e as [| k | k]; simpl.
  - split; [left; lia | reflexivity].
  - split; [left; lia | reflexivity].
  - assert (Hpos : 0 < 2 ^ Z.pos k) by (apply Z.pow_pos_nonneg; lia).
    change (Z.pow_pos 2 k) with (2 ^ Z.pos k).
    change (- Z.neg k) with (Z.pos k).
    pose proof (Z.mod_pos_bound (Z.pos m) (2 ^ Z.pos k) Hpos) as Hb.
    rewrite <- Z.mod_divide by lia.
    destruct (Z.pos m mod 2 ^ Z.pos k) as [| r | r];
      [ split; [right; reflexivity | reflexivity]
      | split; [discriminate | intros [? | ?]; lia]
      | lia ].
Qed.

Section Round.

Variables prec emax : Z.

Lemma binary_round_aux_not_nan s m e l :
  0 <= m -> is_nan (binary_round_aux prec emax s m e l) = false.
Proof.
  intros Hm. unfold binary_round_aux, shr_fexp.
  set (n1 := fexp prec emax (Zdigits2 m + e) - e).
  assert (H1 : 0 <= shr_m (fst (shr (shr_record_of_loc m l) e n1))).
  { apply shr_nonneg. destruct l as [| []]; assumption. }
  destruct (shr (shr_record_of_loc m l) e n1) as [mrs1 e1]; simpl in H1.
  set (m2 := round_nearest_even (shr_m mrs1) (loc_of_shr_record mrs1)).
  assert (Hm2 : 0 <= m2) by now apply round_nearest_even_nonneg.
  set (n2 := fexp prec emax (Zdigits2 m2 + e1) - e1).
  pose proof (shr_nonneg (kept m2) e1 n2 Hm2) as H2.
  change (shr_record_of_loc m2 loc_Exact) with (kept m2).
  destruct (shr (kept m2) e1 n2) as [mrs2 e2]; simpl in H2.
  destruct (shr_m mrs2); [reflexivity | | lia].
  now destruct (e2 <=? emax - prec).
Qed.

Lemma binary_round_aux_whole s m e :
  0 <= m -> whole m e ->
  integral (binary_round_aux prec emax s m e loc_Exact) = true.
Proof.
  intros Hm Hw. unfold binary_round_aux, shr_fexp.
  change (shr_record_of_loc m loc_Exact) with (kept m).
  set (n1 := fexp prec emax (Zdigits2 m + e) - e).
  pose proof (shr_whole m e n1 Hm Hw) as H1; simpl in H1.
  pose proof (shr_nonneg (kept m) e n1 Hm) as N1.
  destruct (shr (kept m) e n1) as [mrs1 e1]; simpl in H1, N1.
  set (m2 := round_nearest_even (shr_m mrs1) (loc_of_shr_record mrs1)).
  assert (Hm2 : 0 <= m2) by now apply round_nearest_even_nonneg.
  assert (Hw2 : whole m2 e1).
  { destruct H1 as [H1 | [Hl Hd]]; [now left | right].
    subst m2. now rewrite Hl. }
  change (shr_record_of_loc m2 loc_Exact) with (kept m2).
  set (n2 := fexp prec emax (Zdigits2 m2 + e1) - e1).
  pose proof (shr_whole m2 e1 n2 Hm2 Hw2) as H2; simpl in H2.
  pose proof (shr_nonneg (kept m2) e1 n2 Hm2) as N2.
  destruct (shr (kept m2) e1 n2) as [mrs2 e2]; simpl in H2, N2.
  destruct (shr_m mrs2) as [| q | q]; [reflexivity | | lia].
  destruct (e2 <=? emax - prec); [| reflexivity].
  apply integral_finite. destruct H2 as [H2 | [_ H2]]; [now left | now right].
Qed.

Lemma shl_align_whole mx ex ex' :
  whole (Z.pos mx) ex ->
  whole (Z.pos (fst (shl_align mx ex ex'))) (snd (shl_align mx ex ex')).
Proof.
  intros Hw. unfold shl_align.
  destruct (ex' - ex) as [| d | d] eqn:Hd; simpl; try assumption.
  change (Pos.iter xO mx d) with (shift_pos d mx).
  rewrite shift_pos_correct. change (Z.pow_pos 2 d) with (2 ^ Z.pos d).
  destruct (Z_le_gt_dec 0 ex') as [Hex | Hex]; [now left | right].
  destruct (Z_le_gt_dec 0 ex) as [Hx | Hx].
  - exists (2 ^ (Z.pos d + ex') * Z.pos mx).
    replace (2 ^ Z.pos d) with (2 ^ (Z.pos d + ex') * 2 ^ (- ex'))
      by (rewrite <- Z.pow_add_r by lia; f_equal; lia).
    ring.
  - destruct Hw as [Hw | [q Hq]]; [lia |].
    exists q. rewrite Hq.
    replace (- ex') with (Z.pos d + - ex) by lia.
    rewrite Z.pow_add_r by lia. ring.
Qed.

Lemma binary_round_whole s mx ex :
  whole (Z.pos mx) ex -> integral (binary_round prec emax s mx ex) = true.
Proof.
  intros Hw. unfold binary_round.
  pose proof (shl_align_whole mx ex
                (fexp prec emax (Z.pos (digits2_pos mx) + ex)) Hw) as Ha.
  destruct (shl_align mx ex _) as [mz ez]; simpl in Ha.
  apply binary_round_aux_whole; [lia | assumption].
Qed.

Lemma binary_round_not_nan s mx ex :
  is_nan (binary_round prec emax s mx ex) = false.
Proof.
  unfold binary_round. destruct (shl_align mx ex _) as [mz ez].
  apply binary_round_aux_not_nan; lia.
Qed.

Lemma binary_normalize_whole m e sz :
  whole m e -> integral (binary_normalize prec emax m e sz) = true.
Proof.
  intros Hw. destruct m as [| p | p]; simpl.
  - reflexivity.
  - now apply binary_round_whole.
  - apply binary_round_whole. destruct Hw as [Hw | Hw]; [now left | right].
    change (Z.pos p) with (- Z.neg p). now apply Z.divide_opp_r.
Qed.

Lemma binary_normalize_not_nan m e sz :
  is_nan (binary_normalize prec emax m e sz) = false.
Proof.
  destruct m; simpl; [reflexivity | |]; apply binary_round_not_nan.
Qed.

End Round.

End Rounding.

Lemma integral_not_nan x : integral x = true -> is_nan x = false.
Proof. now destruct x. Qed.

(** The slot left by [x -= std::modf (x, &z)] has no fractional part. *)
Lemma truncate_integral x : is_nan x = false -> integral (truncate x) = true.
Proof.
  destruct x as [s | s | | s m e]; intros Hx; try discriminate.
  - now destruct s.
  - now destruct s.
  - unfold truncate, integral. cbn [modf_frac].
    destruct e as [| k | k]; [reflexivity | reflexivity |].
    assert (Hpos : 0 < 2 ^ Z.pos k) by (apply Z.pow_pos_nonneg; lia).
    pose proof (Z.div_mod (Z.pos m) (2 ^ Z.pos k) ltac:(lia)) as Hdm.
    destruct (Z.pos m mod 2 ^ Z.pos k) as [| r | r] eqn:Hr.
    + cbn [sub SFsub modf_frac]. now rewrite Hr.
    + fold (integral (sub (S754_finite s m (Z.neg k))
                          (S754_finite s r (Z.neg k)))).
      unfold sub, SFsub. cbv zeta.
      rewrite Z.min_id.
      assert (Hal : forall p, fst (shl_align p (Z.neg k) (Z.neg k)) = p).
      { intros p. unfold shl_align. now rewrite Z.sub_diag. }
      rewrite !Hal.
      apply binary_normalize_whole. right.
      change (- Z.neg k) with (Z.pos k).
      exists (cond_Zopp s (Z.pos m / 2 ^ Z.pos k)).
      destruct s; simpl cond_Zopp; lia.
    + cbn [sub SFsub modf_frac]. now rewrite Hr.
Qed.

(** Truncation leaves a value without fractional part as it is (up to the
    sign of zero). *)
Lemma truncate_of_integral x : integral x = true -> eqb (truncate x) x = true.
Proof.
  unfold integral, truncate.
  destruct x as [s | s | | s m e]; try discriminate.
  - now destruct s.
  - now destruct s.
  - destruct (modf_frac (S754_finite s m e)); try discriminate. intros _.
    unfold eqb, SFeqb; simpl.
    destruct s; rewrite Z.compare_refl, Pos.compare_cont_refl; reflexivity.
Qed.

Example truncate_two_and_a_half :
  truncate (binary_normalize prec emax 5 (-1) false) = of_Z 2.
Proof. vm_compute. reflexivity. Qed.

Example truncate_minus_two_and_a_half :
  truncate (binary_normalize prec emax (-5) (-1) false) = of_Z (-2).
Proof. vm_compute. reflexivity. Qed.

Example truncate_half : truncate half = zero.
Proof. vm_compute. reflexivity. Qed.

Example truncate_minus_half : truncate (SFopp half) = zero.
Proof. vm_compute. reflexivity. Qed.

Example truncate_sixty : truncate (of_Z 60) = of_Z 60.
Proof. vm_compute. reflexivity. Qed.

Example half_is_not_integral : integral half = false.
Proof. reflexivity. Qed.

Example one_is_the_literal : one = S754_finite false 4503599627370496 (-52).
Proof. reflexivity. Qed.


(** *** Truncation is toward zero *)

Lemma digits2_pos_log2 p : Z.pos (digits2_pos p) = Z.log2 (Z.pos p) + 1.
Proof.
  assert (Hs : forall q, digits2_pos q = Pos.size q)
    by (induction q; simpl; congruence).
  destruct p; simpl; rewrite ?Hs; lia.
Qed.

(** Rounding leaves a mantissa in canonical form as it is. *)
Lemma binary_round_canonical s m e :
  canonical_mantissa prec emax m e = true -> e <= emax - prec ->
  binary_round prec emax s m e = S754_finite s m e.
Proof.
  intros Hc He. unfold canonical_mantissa in Hc. apply Z.eqb_eq in Hc.
  unfold binary_round. rewrite Hc.
  unfold shl_align. rewrite Z.sub_diag.
  unfold binary_round_aux, shr_fexp. simpl Zdigits2.
  rewrite Hc, Z.sub_diag. simpl.
  rewrite Hc, Z.sub_diag. simpl.
  apply Z.leb_le in He. now rewrite He.
Qed.

Lemma quot_cond_Zopp s m k :
  Z.quot (cond_Zopp s (Z.pos m)) (2 ^ Z.pos k)
  = cond_Zopp s (Z.pos m / 2 ^ Z.pos k).
Proof.
  assert (Hpos : 0 < 2 ^ Z.pos k) by (apply Z.pow_pos_nonneg; lia).
  destruct s; simpl cond_Zopp.
  - change (Z.neg m) with (- Z.pos m).
    rewrite Z.quot_opp_l by lia. rewrite Z.quot_div_nonneg by lia. reflexivity.
  - now rewrite Z.quot_div_nonneg by lia.
Qed.

(** [x - modf x] is [x] truncated toward zero. *)
Lemma truncate_value x :
  valid x = true -> is_finite x = true ->
  integer_value (truncate x) = Some (integer_part x).
Proof.
  destruct x as [s | s | | s m e]; intros Hv Hf; try discriminate.
  - now destruct s.
  - unfold valid, valid_binary, bounded in Hv.
    apply andb_true_iff in Hv as [Hc He]. apply Z.leb_le in He.
    destruct e as [| k | k].
    + destruct s; reflexivity.
    + destruct s; reflexivity.
    + unfold integer_part. rewrite quot_cond_Zopp.
      unfold truncate. cbn [modf_frac].
      assert (Hpos : 0 < 2 ^ Z.pos k) by (apply Z.pow_pos_nonneg; lia).
      pose proof (Z.div_mod (Z.pos m) (2 ^ Z.pos k) ltac:(lia)) as Hdm.
      pose proof (Z.mod_pos_bound (Z.pos m) (2 ^ Z.pos k) Hpos) as Hb.
      destruct (Z.pos m mod 2 ^ Z.pos k) as [| r | r] eqn:Hr; try lia.
      * cbn [sub SFsub integer_value]. now rewrite Hr.
      * unfold sub, SFsub. cbv zeta. rewrite Z.min_id.
        assert (Hal : forall p, fst (shl_align p (Z.neg k) (Z.neg k)) = p).
        { intros p. unfold shl_align. now rewrite Z.sub_diag. }
        rewrite !Hal.
        replace (cond_Zopp s (Z.pos m) - cond_Zopp s (Z.pos r))
          with (cond_Zopp s (2 ^ Z.pos k * (Z.pos m / 2 ^ Z.pos k)))
          by (destruct s; simpl cond_Zopp; lia).
        pose proof (Z.div_pos (Z.pos m) (2 ^ Z.pos k) ltac:(lia) Hpos) as Hq.
        destruct (Z.pos m / 2 ^ Z.pos k) as [| q | q] eqn:Hqe; try lia.
        -- rewrite Z.mul_0_r. now destruct s.
        -- destruct (2 ^ Z.pos k * Z.pos q) as [| p | p] eqn:Hp; try lia.
           assert (Hn : binary_normalize prec emax (cond_Zopp s (Z.pos p))
                          (Z.neg k) false
                        = binary_round prec emax s p (Z.neg k))
             by now destruct s.
           rewrite Hn. clear Hn.
           assert (Hd : Z.pos (digits2_pos p) = Z.pos (digits2_pos m)).
           { rewrite !digits2_pos_log2. f_equal.
             pose proof (Z.log2_spec (Z.pos m) ltac:(lia)) as [Hlo Hhi].
             pose proof (Z.log2_nonneg (Z.pos m)) as Hnn.
             assert (Hk : Z.pos k <= Z.log2 (Z.pos m)).
             { rewrite <- (Z.log2_pow2 (Z.pos k)) by lia.
               apply Z.log2_le_mono. nia. }
             apply Z.log2_unique; [assumption |]. split; [| lia].
             rewrite <- Hp.
             replace (2 ^ Z.log2 (Z.pos m))
               with (2 ^ Z.pos k * 2 ^ (Z.log2 (Z.pos m) - Z.pos k))
               by (rewrite <- Z.pow_add_r by lia; f_equal; lia).
             apply Z.mul_le_mono_nonneg_l; [lia |].
             rewrite <- Hqe. apply Z.div_le_lower_bound; [lia |].
             rewrite <- Z.pow_add_r by lia.
             replace (Z.pos k + (Z.log2 (Z.pos m) - Z.pos k))
               with (Z.log2 (Z.pos m)) by lia.
             exact Hlo. }
           rewrite binary_round_canonical; [| | assumption].
           ++ cbn [integer_value]. rewrite <- Hp.
              rewrite Z.mul_comm, Z.mod_mul, Z.div_mul by lia. reflexivity.
           ++ unfold canonical_mantissa in *. now rewrite Hd.
Qed.

(** ** Comparisons *)

Ltac cmp_cases :=
  repeat match goal with
    | |- context [Z.compare ?a ?b] => destruct (Z.compare_spec a b); subst
    | H : context [Z.compare ?a ?b] |- _ => destruct (Z.compare_spec a b); subst
    | |- context [Pos.compare_cont Eq ?a ?b] =>
        change (Pos.compare_cont Eq a b) with (Pos.compare a b);
        destruct (Pos.compare_spec a b); subst
    | H : context [Pos.compare_cont Eq ?a ?b] |- _ =>
        change (Pos.compare_cont Eq a b) with (Pos.compare a b) in H;
        destruct (Pos.compare_spec a b); subst
    end;
  simpl in *; try reflexivity; try discriminate; try lia.

Lemma ltb_irrefl x : ltb x x = false.
Proof.
  unfold ltb, SFltb.
  destruct x as [s | s | | s m e]; simpl; try reflexivity;
    destruct s; try reflexivity; cmp_cases.
Qed.

Lemma ltb_asym x y : ltb x y = true -> ltb y x = false.
Proof.
  unfold ltb, SFltb.
  destruct x as [s | s | | s m e], y as [s' | s' | | s' m' e']; simpl;
    try discriminate; try reflexivity;
    try destruct s; try destruct s'; try discriminate; try reflexivity;
    intros H; cmp_cases.
Qed.

Lemma ltb_not_eqb x y : ltb x y = true -> eqb x y = false.
Proof.
  unfold ltb, eqb, SFltb, SFeqb.
  now destruct (SFcompare x y) as [[] |].
Qed.

Lemma ltb_trans x y z : ltb x y = true -> ltb y z = true -> ltb x z = true.
Proof.
  unfold ltb, SFltb.
  destruct x as [s | s | | s m e], y as [s' | s' | | s' m' e'],
    z as [s'' | s'' | | s'' m'' e'']; simpl;
    try discriminate; try reflexivity;
    try destruct s; try destruct s'; try destruct s'';
    try discriminate; try reflexivity;
    intros H1 H2; cmp_cases.
Qed.

(** ** Absolute values and differences *)

Lemma abs_not_negative x : ltb (abs x) zero = false.
Proof. now destruct x as [s | s | | s m e]. Qed.

Lemma abs_nonneg_or_nan x : is_nan (abs x) = true \/ leb zero (abs x) = true.
Proof. destruct x as [s | s | | s m e]; simpl; auto. Qed.

Lemma abs_nan x : is_nan (abs x) = is_nan x.
Proof. now destruct x. Qed.

Lemma abs_binary_round_aux s m e l :
  abs (binary_round_aux prec emax s m e l)
  = abs (binary_round_aux prec emax false m e l).
Proof.
  unfold binary_round_aux.
  destruct (shr_fexp prec emax m e l) as [mrs1 e1].
  destruct (shr_fexp prec emax _ e1 loc_Exact) as [mrs2 e2].
  destruct (shr_m mrs2); try reflexivity.
  now destruct (e2 <=? emax - prec).
Qed.

Lemma abs_binary_round s m e :
  abs (binary_round prec emax s m e) = abs (binary_round prec emax false m e).
Proof.
  unfold binary_round. destruct (shl_align m e _) as [mz ez].
  apply abs_binary_round_aux.
Qed.

Lemma abs_binary_normalize_opp m e :
  abs (binary_normalize prec emax (- m) e false)
  = abs (binary_normalize prec emax m e false).
Proof.
  destruct m as [| p | p]; simpl; try reflexivity.
  - apply abs_binary_round.
  - symmetry; apply abs_binary_round.
Qed.

(** The absolute difference does not depend on the order of its operands. *)
Lemma abs_sub_sym x y : abs (sub x y) = abs (sub y x).
Proof.
  destruct x as [s | s | | s m e], y as [s' | s' | | s' m' e'];
    try reflexivity; try (now destruct s, s').
  unfold sub, SFsub. cbv zeta.
  rewrite (Z.min_comm e' e).
  rewrite <- abs_binary_normalize_opp. f_equal. f_equal. lia.
Qed.

(** A difference is NaN exactly for a NaN operand or two infinities of the
    same sign. *)
Lemma sub_nan_iff x y :
  is_nan (sub x y) = true <->
  is_nan x = true \/ is_nan y = true \/
  exists s, x = S754_infinity s /\ y = S754_infinity s.
Proof.
  destruct x as [s | s | | s m e], y as [s' | s' | | s' m' e']; simpl;
    try (split; [discriminate | intros [H | [H | (? & H & H')]]; discriminate]);
    try (split; [auto | reflexivity]).
  - destruct s, s'; simpl.
    + split; [discriminate | intros [H | [H | (? & H & H')]]; discriminate].
    + split; [discriminate | intros [H | [H | (? & H & H')]]; discriminate].
    + split; [discriminate | intros [H | [H | (? & H & H')]]; discriminate].
    + split; [discriminate | intros [H | [H | (? & H & H')]]; discriminate].
  - destruct s, s'; simpl;
      try (split; [discriminate |
                   intros [H | [H | (? & H & H')]]; congruence]);
      split; eauto.
  - unfold sub, SFsub. cbv zeta. rewrite binary_normalize_not_nan.
    split; [discriminate | intros [H | [H | (? & H & H')]]; discriminate].
Qed.

(** ** Draws *)

Lemma in_unif_range_finite d : in_unif_range d = true -> is_finite d = true.
Proof.
  unfold in_unif_range. destruct d as [s | s | | s m e]; try reflexivity.
  - now destruct s.
  - discriminate.
Qed.

Lemma add_not_nan x d :
  is_nan x = false -> is_finite d = true -> is_nan (add x d) = false.
Proof.
  destruct x as [s | s | | s m e], d as [s' | s' | | s' m' e'];
    try discriminate; try reflexivity; intros _ _.
  - now destruct s, s'.
  - unfold add, SFadd. cbv zeta. apply binary_normalize_not_nan.
Qed.

Lemma sub_not_nan x d :
  is_nan x = false -> is_finite d = true -> is_nan (sub x d) = false.
Proof.
  destruct x as [s | s | | s m e], d as [s' | s' | | s' m' e'];
    try discriminate; try reflexivity; intros _ _.
  - now destruct s, s'.
  - unfold sub, SFsub. cbv zeta. apply binary_normalize_not_nan.
Qed.

(** * The program *)

Section Properties.

Context `{ET : ExprTk} `{RS : RandomSource}.
Variable NumNumbers : nat.
Variable cfg : Config.

(** ** The monad *)

Lemma bind_Ok {A B} (m : M A) (f : A -> M B) s b s2 :
  bind m f s = Ok b s2 -> exists a s1, m s = Ok a s1 /\ f a s1 = Ok b s2.
Proof. unfold bind. destruct (m s); intros H; try discriminate H. eauto. Qed.

Lemma bind_Exit {A B} (m : M A) (f : A -> M B) s c s2 :
  bind m f s = Exit c s2 ->
  m s = Exit c s2 \/ exists a s1, m s = Ok a s1 /\ f a s1 = Exit c s2.
Proof.
  unfold bind. destruct (m s); intros H; try discriminate H;
    [right; eauto | left; now injection H as -> ->].
Qed.

Lemma upd_compiled_same (s : State) : upd_compiled (compiled s) s = s.
Proof. now destruct s. Qed.

Lemma upd_prng_same (s : State) : upd_prng (prng s) s = s.
Proof. now destruct s. Qed.

(** ** Evaluation *)

Lemma calc_eq e ns s :
  calc NumNumbers e ns s =
  match parser_compile (bindings NumNumbers ns) e with
  | inl err =>
      Exit 1 (upd_cout (cout s ++ error_report err e)
                (upd_compiled (compiled s ++ [e]) s))
  | inr expression =>
      Ok (expression_value expression) (upd_compiled (compiled s ++ [e]) s)
  end.
Proof.
  unfold calc, bind, log_compile, print, exit, ret.
  now destruct (parser_compile (bindings NumNumbers ns) e).
Qed.

Lemma test_conditions_Ok cs ns s b s' :
  test_conditions NumNumbers cs ns s = Ok b s' ->
  b = negb (passes NumNumbers cs ns) /\
  s' = upd_compiled (compiled s ++ examined NumNumbers ns cs) s.
Proof.
  revert s; induction cs as [| C cs IH]; intros s H; simpl in H.
  - injection H as <- <-. split; [reflexivity |].
    simpl. now rewrite app_nil_r, upd_compiled_same.
  - unfold bind in H. rewrite calc_eq in H.
    simpl. unfold holds, value_at.
    destruct (parser_compile (bindings NumNumbers ns) C) as [err | ex];
      [discriminate |].
    destruct (eqb (expression_value ex) one); simpl in H.
    + apply IH in H as [-> ->]. split; [reflexivity |].
      destruct s; unfold upd_compiled; simpl. now rewrite <- app_assoc.
    + injection H as <- <-. split; reflexivity.
Qed.

Lemma test_conditions_Exit cs ns s c s' :
  test_conditions NumNumbers cs ns s = Exit c s' ->
  c = 1 /\
  exists C err,
    last (examined NumNumbers ns cs) = Some C /\
    parser_compile (bindings NumNumbers ns) C = inl err /\
    s' = upd_cout (cout s ++ error_report err C)
           (upd_compiled (compiled s ++ examined NumNumbers ns cs) s).
Proof.
  revert s; induction cs as [| C cs IH]; intros s H; simpl in H.
  - discriminate.
  - unfold bind in H. rewrite calc_eq in H.
    simpl. unfold holds, value_at.
    destruct (parser_compile (bindings NumNumbers ns) C) as [err | ex] eqn:HC.
    + injection H as <- <-. split; [reflexivity |].
      exists C, err. repeat split; assumption.
    + destruct (eqb (expression_value ex) one); simpl in H; [| discriminate].
      apply IH in H as [-> (C' & err & Hl & HC' & ->)].
      split; [reflexivity |]. exists C', err. repeat split.
      * destruct (examined NumNumbers ns cs); [discriminate | exact Hl].
      * assumption.
      * destruct s; unfold upd_compiled, upd_cout; simpl.
        now rewrite <- app_assoc.
Qed.

Lemma test_conditions_defined cs ns s :
  test_conditions NumNumbers cs ns s <> Undefined /\
  test_conditions NumNumbers cs ns s <> OutOfFuel.
Proof.
  revert s; induction cs as [| C cs IH]; intros s; simpl.
  - split; discriminate.
  - unfold bind. rewrite calc_eq.
    destruct (parser_compile (bindings NumNumbers ns) C) as [err | ex];
      [split; discriminate |].
    destruct (eqb (expression_value ex) one); simpl; [apply IH |].
    split; discriminate.
Qed.

Lemma test_conditions_Ok_compiled cs ns s b s' :
  test_conditions NumNumbers cs ns s = Ok b s' ->
  forall C, In C (examined NumNumbers ns cs) -> value_at NumNumbers ns C <> None.
Proof.
  revert s; induction cs as [| C0 cs IH]; intros s H C HC; simpl in *;
    [contradiction |].
  unfold bind in H. rewrite calc_eq in H. unfold holds, value_at in *.
  destruct (parser_compile (bindings NumNumbers ns) C0) as [err | ex] eqn:H0;
    [discriminate |].
  destruct HC as [<- | HC]; [now rewrite H0 |].
  destruct (eqb (expression_value ex) one); simpl in H; [| contradiction].
  eapply IH; eassumption.
Qed.

Lemma examined_prefix ns cs : exists rest, cs = examined NumNumbers ns cs ++ rest.
Proof.
  induction cs as [| C cs [rest IH]]; simpl.
  - now exists [].
  - destruct (holds NumNumbers ns C).
    + exists rest. simpl. now f_equal.
    + now exists cs.
Qed.

Lemma passes_examined ns cs :
  passes NumNumbers cs ns = true -> examined NumNumbers ns cs = cs.
Proof.
  induction cs as [| C cs IH]; simpl; [reflexivity |].
  destruct (holds NumNumbers ns C); simpl; [| discriminate].
  intros H. now rewrite IH.
Qed.

(** ** Random draws and mutation *)

Lemma engine_moved_refl s : engine_moved s s.
Proof. exists (prng s). now rewrite upd_prng_same. Qed.

Lemma engine_moved_trans s1 s2 s3 :
  engine_moved s1 s2 -> engine_moved s2 s3 -> engine_moved s1 s3.
Proof. intros [g ->] [g' ->]. now exists g'. Qed.

Lemma draw_size_eq s :
  draw_size s = Ok (fst (unifSizeT (prng s))) (upd_prng (snd (unifSizeT (prng s))) s).
Proof. unfold draw_size. now destruct (unifSizeT (prng s)). Qed.

Lemma draw_double_eq s :
  draw_double s
  = Ok (fst (unifDouble (prng s))) (upd_prng (snd (unifDouble (prng s))) s).
Proof. unfold draw_double. now destruct (unifDouble (prng s)). Qed.

Lemma getRandomDouble_Ok fuel s d s' :
  getRandomDouble fuel s = Ok d s' ->
  is_zero d = false /\ (exists g, d = fst (unifDouble g)) /\ engine_moved s s'.
Proof.
  revert s; induction fuel as [| fuel IH]; intros s H; simpl in H;
    [discriminate |].
  unfold bind in H. rewrite draw_double_eq in H.
  destruct (is_zero (fst (unifDouble (prng s)))) eqn:Hz.
  - apply IH in H as (? & ? & Hm). split; [assumption | split; [assumption |]].
    eapply engine_moved_trans; [| exact Hm]. now eexists.
  - injection H as <- <-.
    split; [assumption | split; [now eexists | now eexists]].
Qed.

Lemma getRandomDouble_no_exit fuel s :
  (forall c s', getRandomDouble fuel s <> Exit c s') /\
  getRandomDouble fuel s <> Undefined.
Proof.
  revert s; induction fuel as [| fuel IH]; intros s; simpl;
    [split; [intros ? ? |]; discriminate |].
  unfold bind. rewrite draw_double_eq.
  destruct (is_zero (fst (unifDouble (prng s)))); [apply IH |].
  split; [intros ? ? |]; discriminate.
Qed.

(** With enough fuel for the zero draws, [getRandomDouble] returns. *)
Lemma getRandomDouble_returns fuel s :
  draws_nonzero fuel (prng s) = true ->
  exists d s', getRandomDouble fuel s = Ok d s'.
Proof.
  revert s; induction fuel as [| fuel IH]; intros s H; simpl in H;
    [discriminate |].
  simpl. unfold bind. rewrite draw_double_eq.
  destruct (unifDouble (prng s)) as [r g] eqn:Hu; simpl.
  destruct (is_zero r); [| unfold ret; eauto].
  apply IH. assumption.
Qed.

Lemma getStatic_Ok s ns s' :
  getStatic s = Ok ns s' -> In ns (corpus s) /\ engine_moved s s'.
Proof.
  unfold getStatic, bind, get. rewrite draw_size_eq. simpl.
  destruct (corpus s) as [| c0 cs] eqn:Hc; [discriminate |].
  destruct (_ !! _) as [x |] eqn:Hx; [| discriminate].
  intros H; injection H as <- <-. split; [| now eexists].
  apply list_elem_of_In. eapply list_elem_of_lookup_2. exact Hx.
Qed.

Lemma getStatic_returns s :
  corpus s <> [] -> exists ns s', getStatic s = Ok ns s' /\ engine_moved s s'.
Proof.
  intros Hne. unfold getStatic, bind, get. rewrite draw_size_eq. simpl.
  destruct (corpus s) as [| c0 cs] eqn:Hc; [contradiction |].
  set (r := fst (unifSizeT (prng s))).
  destruct (lookup_lt_is_Some_2 (c0 :: cs)
              (N.to_nat (r mod N.of_nat (length (c0 :: cs))))) as [x Hx].
  { pose proof (N.mod_lt r (N.of_nat (length (c0 :: cs)))) as Hlt.
    simpl length in *. lia. }
  rewrite Hx. unfold ret. do 2 eexists. split; [reflexivity | now eexists].
Qed.

Lemma mutate_step_Ok fuel ns s ns' s' :
  (0 < NumNumbers)%nat ->
  mutate_step NumNumbers cfg fuel ns s = Ok ns' s' ->
  exists whichNum mu d,
    (whichNum < NumNumbers)%nat /\ is_zero d = false /\
    (exists g, d = fst (unifDouble g)) /\
    ns' = perturb cfg whichNum mu d ns /\ engine_moved s s'.
Proof.
  intros HN H. unfold mutate_step, bind in H.
  rewrite draw_size_eq in H. rewrite draw_size_eq in H.
  destruct (getRandomDouble fuel _) as [d s1 | | |] eqn:Hd; try discriminate.
  injection H as <- <-.
  apply getRandomDouble_Ok in Hd as (Hz & Hg & Hm).
  exists (N.to_nat (fst (unifSizeT (prng s)) mod N.of_nat NumNumbers)).
  do 2 eexists.
  split; [| split; [exact Hz | split; [exact Hg | split; [reflexivity |]]]].
  - pose proof (N.mod_lt (fst (unifSizeT (prng s))) (N.of_nat NumNumbers)).
    lia.
  - eapply engine_moved_trans; [| exact Hm].
    eapply engine_moved_trans; now eexists.
Qed.

Lemma mutate_for_Ok j fuel ns s ns' s' :
  (0 < NumNumbers)%nat -> unifDouble_contract ->
  mutate_for NumNumbers cfg j fuel ns s = Ok ns' s' ->
  perturbs NumNumbers cfg j ns ns' /\ engine_moved s s'.
Proof.
  intros HN Hc. revert ns s; induction j as [| j IH]; intros ns s H; simpl in H.
  - injection H as <- <-. split; [constructor | apply engine_moved_refl].
  - apply bind_Ok in H as (ns1 & s1 & H1 & H2).
    apply mutate_step_Ok in H1 as (i & mu & d & Hi & Hz & [g Hg] & -> & Hm);
      [| assumption].
    apply IH in H2 as [Hp Hm2]. split.
    + econstructor; try eassumption. subst d. apply Hc.
    + eapply engine_moved_trans; eassumption.
Qed.

(** What [mutate] returns: a corpus member after three passes of the loop. *)
Lemma mutate_Ok fuel s ns s' :
  (0 < NumNumbers)%nat -> unifDouble_contract ->
  mutate NumNumbers cfg fuel s = Ok ns s' ->
  (exists base, In base (corpus s) /\ perturbs NumNumbers cfg 3 base ns) /\
  engine_moved s s'.
Proof.
  intros HN Hc H. unfold mutate in H.
  apply bind_Ok in H as (base & s1 & H1 & H2).
  apply getStatic_Ok in H1 as [Hin Hm1].
  apply mutate_for_Ok in H2 as [Hp Hm2]; try assumption.
  split; [eauto | eapply engine_moved_trans; eassumption].
Qed.

Lemma mutate_engine fuel s ns s' :
  mutate NumNumbers cfg fuel s = Ok ns s' -> engine_moved s s'.
Proof.
  intros H. unfold mutate in H.
  apply bind_Ok in H as (base & s1 & H1 & H2).
  apply getStatic_Ok in H1 as [_ Hm1].
  eapply engine_moved_trans; [exact Hm1 |]. clear Hm1 s.
  revert H2. generalize 3%nat as j. intros j; revert base s1.
  induction j as [| j IH]; intros base s1 H; simpl in H.
  - injection H as <- <-. apply engine_moved_refl.
  - apply bind_Ok in H as (ns1 & s2 & H1 & H2).
    apply IH in H2. eapply engine_moved_trans; [| exact H2].
    unfold mutate_step, bind in H1.
    rewrite draw_size_eq in H1. rewrite draw_size_eq in H1.
    destruct (getRandomDouble fuel _) as [d s3 | | |] eqn:Hd; try discriminate.
    injection H1 as <- <-.
    apply getRandomDouble_Ok in Hd as (_ & _ & Hm).
    eapply engine_moved_trans; [| exact Hm].
    eapply engine_moved_trans; now eexists.
Qed.

Lemma mutate_no_exit fuel s c s' : mutate NumNumbers cfg fuel s <> Exit c s'.
Proof.
  unfold mutate. intros H.
  apply bind_Exit in H as [H | (base & s1 & _ & H)].
  - unfold getStatic, bind, get in H. rewrite draw_size_eq in H. simpl in H.
    destruct (corpus s); [discriminate |].
    destruct (_ !! _); discriminate.
  - revert H. generalize 3%nat as j. intros j; revert base s1.
    induction j as [| j IH]; intros base s1 H; simpl in H; [discriminate |].
    apply bind_Exit in H as [H | (ns1 & s2 & _ & H)]; [| eapply IH; eassumption].
    unfold mutate_step, bind in H.
    rewrite draw_size_eq in H. rewrite draw_size_eq in H.
    destruct (getRandomDouble fuel _) as [d s3 | | |] eqn:Hd; try discriminate.
    injection H as -> ->.
    eapply (proj1 (getRandomDouble_no_exit _ _)). exact Hd.
Qed.

(** [mutate] returns, whatever is drawn, as long as [getRandomDouble] meets a
    draw that is not zero. *)
Lemma mutate_returns fuel s :
  (forall g, draws_nonzero fuel g = true) -> corpus s <> [] ->
  exists ns s', mutate NumNumbers cfg fuel s = Ok ns s'.
Proof.
  intros Hf Hne. unfold mutate.
  destruct (getStatic_returns s Hne) as (base & s1 & Hg & _).
  unfold bind at 1. rewrite Hg. clear Hg Hne s.
  generalize 3%nat as j. intros j; revert base s1.
  induction j as [| j IH]; intros base s1; simpl.
  - unfold ret; eauto.
  - unfold bind at 1. unfold mutate_step, bind.
    rewrite draw_size_eq. rewrite draw_size_eq.
    destruct (getRandomDouble_returns fuel
                (upd_prng (snd (unifSizeT (prng (upd_prng (snd (unifSizeT (prng s1))) s1))))
                   (upd_prng (snd (unifSizeT (prng s1))) s1)))
      as (d & s2 & Hd); [apply Hf |].
    rewrite Hd. unfold ret. apply IH.
Qed.

(** *** The shape of the assignments *)

Lemma perturb_length whichNum mu d ns :
  length (perturb cfg whichNum mu d ns) = length ns.
Proof.
  unfold perturb. destruct (round cfg), mu; now rewrite ?length_alter.
Qed.


Lemma perturb_integral whichNum mu d ns :
  round cfg = true -> is_finite d = true ->
  all_integral ns -> all_integral (perturb cfg whichNum mu d ns).
Proof.
  intros Hr Hd Hns. unfold perturb, all_integral. rewrite Hr.
  destruct mu; rewrite list_alter_alter_eq; apply Forall_alter;
    try assumption; intros x _ Hx; simpl; apply truncate_integral.
  - apply add_not_nan; [now apply integral_not_nan | assumption].
  - apply sub_not_nan; [now apply integral_not_nan | assumption].
Qed.

(** In round mode the slot a pass touched holds an integral value, whatever
    the assignment held before. *)
Lemma perturb_slot_integral whichNum mu d ns x :
  round cfg = true -> is_finite d = true ->
  Forall (fun y => is_nan y = false) ns ->
  perturb cfg whichNum mu d ns !! whichNum = Some x -> integral x = true.
Proof.
  intros Hr Hd Hns. unfold perturb. rewrite Hr.
  destruct mu; rewrite list_alter_alter_eq, list_lookup_alter_eq;
    destruct (ns !! whichNum) as [y |] eqn:Hy; simpl; try discriminate;
    intros H; injection H as <-; apply truncate_integral;
    pose proof (proj1 (Forall_lookup _ _) Hns _ _ Hy) as Hn; simpl in Hn.
  - now apply add_not_nan.
  - now apply sub_not_nan.
Qed.

Lemma perturbs_integral k ns ns' :
  round cfg = true -> all_integral ns ->
  perturbs NumNumbers cfg k ns ns' -> all_integral ns'.
Proof.
  intros Hr Hns Hp. induction Hp as [| k ns ns' i mu d _ _ Hd _ IH];
    [assumption |].
  apply IH, perturb_integral; try assumption.
  now apply in_unif_range_finite.
Qed.


(** ** One pass of the search loop *)

Lemma numStructToDiff_eq ns s :
  numStructToDiff NumNumbers cfg ns s =
  match parser_compile (bindings NumNumbers ns) (expr1 cfg) with
  | inl err =>
      Exit 1 (upd_cout (cout s ++ error_report err (expr1 cfg))
                (upd_compiled (compiled s ++ [expr1 cfg]) s))
  | inr ex1 =>
      match parser_compile (bindings NumNumbers ns) (expr2 cfg) with
      | inl err =>
          Exit 1 (upd_cout (cout s ++ error_report err (expr2 cfg))
                    (upd_compiled (compiled s ++ [expr1 cfg; expr2 cfg]) s))
      | inr ex2 =>
          Ok (abs_difference (expression_value ex1) (expression_value ex2),
              expression_value ex1, expression_value ex2)
            (scored cfg s)
      end
  end.
Proof.
  unfold numStructToDiff, bind. rewrite calc_eq.
  destruct (parser_compile _ (expr1 cfg)) as [err | ex1]; [reflexivity |].
  rewrite calc_eq.
  destruct (parser_compile _ (expr2 cfg)) as [err | ex2];
    destruct s; unfold upd_cout, upd_compiled, scored, upd_iter; simpl;
    now rewrite <- app_assoc.
Qed.

(** The passes that return a verdict, verdict by verdict. *)
Lemma Fuzz_body_Ok fuel s v s' :
  Fuzz_body NumNumbers cfg fuel s = Ok v s' ->
  exists ns s1,
    mutate NumNumbers cfg fuel s = Ok ns s1 /\
    match v with
    | ConditionFailed =>
        passes NumNumbers (conditions cfg) ns = false /\
        s' = filtered NumNumbers cfg ns s1
    | NotBetter =>
        passes NumNumbers (conditions cfg) ns = true /\
        exists res1 res2,
          value_at NumNumbers ns (expr1 cfg) = Some res1 /\
          value_at NumNumbers ns (expr2 cfg) = Some res2 /\
          improves (diff s) (abs_difference res1 res2) = false /\
          s' = scored cfg (filtered NumNumbers cfg ns s1)
    | Improved =>
        passes NumNumbers (conditions cfg) ns = true /\
        exists res1 res2,
          value_at NumNumbers ns (expr1 cfg) = Some res1 /\
          value_at NumNumbers ns (expr2 cfg) = Some res2 /\
          improves (diff s) (abs_difference res1 res2) = true /\
          eqb (abs_difference res1 res2) zero = false /\
          s' = appended NumNumbers ns res1 res2 (abs_difference res1 res2)
                 (scored cfg (filtered NumNumbers cfg ns s1))
    | Solved =>
        passes NumNumbers (conditions cfg) ns = true /\
        exists res1 res2,
          value_at NumNumbers ns (expr1 cfg) = Some res1 /\
          value_at NumNumbers ns (expr2 cfg) = Some res2 /\
          improves (diff s) (abs_difference res1 res2) = true /\
          eqb (abs_difference res1 res2) zero = true /\
          s' = reported NumNumbers cfg ns
                 (appended NumNumbers ns res1 res2 (abs_difference res1 res2)
                    (scored cfg (filtered NumNumbers cfg ns s1)))
    end.
Proof.
  intros H. unfold Fuzz_body in H.
  apply bind_Ok in H as (ns & s1 & Hm & H).
  pose proof (mutate_engine _ _ _ _ Hm) as [g Hg].
  exists ns, s1. split; [assumption |].
  apply bind_Ok in H as (b & s2 & Ht & H).
  apply test_conditions_Ok in Ht as [-> ->].
  fold (filtered NumNumbers cfg ns s1) in H.
  destruct (passes NumNumbers (conditions cfg) ns); simpl in H.
  2:{ injection H as <- <-. split; reflexivity. }
  apply bind_Ok in H as ([[d res1] res2] & s3 & Hn & H).
  rewrite numStructToDiff_eq in Hn. unfold value_at.
  destruct (parser_compile _ (expr1 cfg)) as [? | ex1]; [discriminate |].
  destruct (parser_compile _ (expr2 cfg)) as [? | ex2]; [discriminate |].
  injection Hn as <- <- <- <-.
  unfold bind, get, corpus_push_back, set_diff, print, ret in H; simpl in H.
  assert (Hd : diff s1 = diff s) by (subst s1; reflexivity).
  rewrite Hd in H.
  destruct (improves (diff s) _) eqn:Hi.
  - destruct (eqb _ zero) eqn:Hz; injection H as <- <-;
      (split; [reflexivity |]); do 2 eexists;
      (split; [reflexivity |]); (split; [reflexivity |]);
      (split; [assumption |]); (split; [assumption |]); reflexivity.
  - injection H as <- <-. split; [reflexivity |]. do 2 eexists.
    split; [reflexivity |]. split; [reflexivity |]. split; [assumption |].
    reflexivity.
Qed.

(** The passes in which the process exits: some text handed to
    [parser.compile] was refused. *)
Lemma Fuzz_body_Exit fuel s c s' :
  Fuzz_body NumNumbers cfg fuel s = Exit c s' ->
  c = 1 /\
  exists ns s1 e err,
    mutate NumNumbers cfg fuel s = Ok ns s1 /\
    parser_compile (bindings NumNumbers ns) e = inl err /\
    last (compiled s') = Some e /\
    In e (conditions cfg ++ [expr1 cfg; expr2 cfg]) /\
    cout s' = cout s ++ error_report err e /\
    corpus s' = corpus s /\ diff s' = diff s /\ iter s' = iter s.
Proof.
  intros H. unfold Fuzz_body in H.
  apply bind_Exit in H as [H | (ns & s1 & Hm & H)];
    [now apply mutate_no_exit in H |].
  pose proof (mutate_engine _ _ _ _ Hm) as [g Hg].
  apply bind_Exit in H as [H | (b & s2 & Ht & H)].
  - apply test_conditions_Exit in H as [-> (C & err & Hl & HC & ->)].
    split; [reflexivity |]. exists ns, s1, C, err.
    split; [assumption |]. split; [assumption |].
    split; [| split; [| subst s1; repeat split]].
    + simpl. destruct (examined NumNumbers ns (conditions cfg)) as [| x l] eqn:He;
        [discriminate |].
      rewrite <- He. rewrite last_app. rewrite He at 1. now rewrite Hl.
    + destruct (examined_prefix ns (conditions cfg)) as [rest Hr].
      rewrite Hr, <- app_assoc. apply in_or_app. left.
      apply list_elem_of_In. eapply list_elem_of_lookup_2.
      rewrite <- last_lookup. exact Hl.
  - apply test_conditions_Ok in Ht as [-> ->].
    destruct (passes NumNumbers (conditions cfg) ns); simpl in H;
      [| discriminate].
    apply bind_Exit in H as [H | ([[d res1] res2] & s3 & Hn & H)].
    + rewrite numStructToDiff_eq in H.
      destruct (parser_compile _ (expr1 cfg)) as [err | ex1] eqn:H1.
      * injection H as <- <-. split; [reflexivity |].
        exists ns, s1, (expr1 cfg), err. subst s1; simpl.
        repeat split; try assumption.
        -- apply last_snoc.
        -- apply in_or_app; right; now left.
      * destruct (parser_compile _ (expr2 cfg)) as [err | ex2] eqn:H2;
          [| discriminate].
        injection H as <- <-. split; [reflexivity |].
        exists ns, s1, (expr2 cfg), err. subst s1; simpl.
        repeat split; try assumption.
        -- change [expr1 cfg; expr2 cfg] with ([expr1 cfg] ++ [expr2 cfg]).
           rewrite app_assoc. apply last_snoc.
        -- apply in_or_app; right; right; now left.
    + unfold bind, get, corpus_push_back, set_diff, print, ret in H;
        simpl in H.
      destruct (improves _ d); [destruct (eqb d zero) |]; discriminate.
Qed.

(** A pass has an outcome as soon as the corpus is not empty and
    [getRandomDouble] meets a draw that is not zero. *)
Lemma Fuzz_body_returns fuel s :
  (forall g, draws_nonzero fuel g = true) -> corpus s <> [] ->
  (exists v s', Fuzz_body NumNumbers cfg fuel s = Ok v s') \/
  (exists s', Fuzz_body NumNumbers cfg fuel s = Exit 1 s').
Proof.
  intros Hf Hne.
  destruct (mutate_returns fuel s Hf Hne) as (ns & s1 & Hm).
  destruct (Fuzz_body NumNumbers cfg fuel s) as [v s' | c s' | |] eqn:H.
  - left; eauto.
  - apply Fuzz_body_Exit in H as [-> _]. right; eauto.
  - exfalso. unfold Fuzz_body, bind in H. rewrite Hm in H.
    destruct (test_conditions NumNumbers (conditions cfg) ns s1)
      as [b s2 | c s2 | |] eqn:Ht; try discriminate;
      [| now apply test_conditions_defined in Ht].
    destruct b; [discriminate |].
    rewrite numStructToDiff_eq in H.
    destruct (parser_compile _ (expr1 cfg)); [discriminate |].
    destruct (parser_compile _ (expr2 cfg)); [discriminate |].
    unfold get, corpus_push_back, set_diff, print, ret in H; simpl in H.
    destruct (improves _ _); [destruct (eqb _ zero) |]; discriminate.
  - exfalso. unfold Fuzz_body, bind in H. rewrite Hm in H.
    destruct (test_conditions NumNumbers (conditions cfg) ns s1)
      as [b s2 | c s2 | |] eqn:Ht; try discriminate;
      [| now apply test_conditions_defined in Ht].
    destruct b; [discriminate |].
    rewrite numStructToDiff_eq in H.
    destruct (parser_compile _ (expr1 cfg)); [discriminate |].
    destruct (parser_compile _ (expr2 cfg)); [discriminate |].
    unfold get, corpus_push_back, set_diff, print, ret in H; simpl in H.
    destruct (improves _ _); [destruct (eqb _ zero) |]; discriminate.
Qed.


(** ** Runs of the loop *)

Lemma Fuzz_loop_S cycles fuel s :
  Fuzz_loop NumNumbers cfg (S cycles) fuel s =
  match Fuzz_body NumNumbers cfg fuel s with
  | Ok Solved s1 => Ok [Solved] s1
  | Ok v s1 =>
      match Fuzz_loop NumNumbers cfg cycles fuel s1 with
      | Ok vs s2 => Ok (v :: vs) s2
      | Exit c s2 => Exit c s2
      | Undefined => Undefined
      | OutOfFuel => OutOfFuel
      end
  | Exit c s1 => Exit c s1
  | Undefined => Undefined
  | OutOfFuel => OutOfFuel
  end.
Proof.
  simpl. unfold bind.
  destruct (Fuzz_body NumNumbers cfg fuel s) as [[] s1 | | |]; reflexivity.
Qed.

(** Induction over the passes of a run that is still going or has returned. *)
Lemma Fuzz_loop_run (R : State -> list verdict -> State -> Prop) fuel :
  (forall s, R s [] s) ->
  (forall s v s1 vs s2,
     Fuzz_body NumNumbers cfg fuel s = Ok v s1 ->
     (v = Solved -> vs = [] /\ s2 = s1) ->
     R s1 vs s2 -> R s (v :: vs) s2) ->
  forall cycles s vs s',
    Fuzz_loop NumNumbers cfg cycles fuel s = Ok vs s' -> R s vs s'.
Proof.
  intros H0 HS. induction cycles as [| cycles IH]; intros s vs s' H.
  - injection H as <- <-. apply H0.
  - rewrite Fuzz_loop_S in H.
    destruct (Fuzz_body NumNumbers cfg fuel s) as [v s1 | | |] eqn:Hb;
      try discriminate.
    destruct v;
      try (destruct (Fuzz_loop NumNumbers cfg cycles fuel s1)
             as [vs1 s2 | | |] eqn:Hl; try discriminate;
           injection H as <- <-;
           eapply HS; [exact Hb | discriminate | now apply IH]).
    injection H as <- <-. eapply HS; [exact Hb | now split | apply H0].
Qed.

(** A property of the state that every pass keeps holds at the end of every
    run, also when the process exits. *)
Lemma Fuzz_loop_invariant (I : State -> Prop) fuel :
  (forall s v s', I s -> Fuzz_body NumNumbers cfg fuel s = Ok v s' -> I s') ->
  (forall s c s', I s -> Fuzz_body NumNumbers cfg fuel s = Exit c s' -> I s') ->
  forall cycles s, I s ->
    (forall vs s', Fuzz_loop NumNumbers cfg cycles fuel s = Ok vs s' -> I s') /\
    (forall c s', Fuzz_loop NumNumbers cfg cycles fuel s = Exit c s' -> I s').
Proof.
  intros HOk HExit. induction cycles as [| cycles IH]; intros s Hs.
  - split; [intros vs s' H; now injection H as <- <- | discriminate].
  - rewrite Fuzz_loop_S.
    destruct (Fuzz_body NumNumbers cfg fuel s) as [v s1 | c s1 | |] eqn:Hb.
    + specialize (IH s1 (HOk _ _ _ Hs Hb)) as [IH1 IH2].
      destruct v;
        try (destruct (Fuzz_loop NumNumbers cfg cycles fuel s1)
               as [vs1 s2 | c s2 | |] eqn:Hl;
             split; intros ? ? H; try discriminate H;
             [injection H as <- <-; eapply IH1; reflexivity
             | injection H as <- <-; eapply IH2; reflexivity]).
      split; intros ? ? H; [| discriminate].
      injection H as <- <-. eapply HOk; eassumption.
    + split; intros ? ? H; [discriminate |].
      injection H as <- <-. eapply HExit; eassumption.
    + split; discriminate.
    + split; discriminate.
Qed.

(** *** What a pass does to the corpus and to the best difference *)

Lemma Fuzz_body_corpus fuel s v s' :
  Fuzz_body NumNumbers cfg fuel s = Ok v s' ->
  exists ns s1,
    mutate NumNumbers cfg fuel s = Ok ns s1 /\
    corpus s' = corpus s ++ (if accepted v then [ns] else []).
Proof.
  intros H. apply Fuzz_body_Ok in H as (ns & s1 & Hm & H).
  pose proof (mutate_engine _ _ _ _ Hm) as [g ->].
  exists ns, (upd_prng g s). split; [exact Hm |].
  destruct v; simpl.
  - destruct H as [_ ->]. simpl. now rewrite app_nil_r.
  - destruct H as (_ & r1 & r2 & _ & _ & _ & ->). simpl. now rewrite app_nil_r.
  - destruct H as (_ & r1 & r2 & _ & _ & _ & _ & ->). reflexivity.
  - destruct H as (_ & r1 & r2 & _ & _ & _ & _ & ->). reflexivity.
Qed.

Lemma Fuzz_body_diff fuel s v s' :
  Fuzz_body NumNumbers cfg fuel s = Ok v s' ->
  if accepted v
  then exists d, diff s' = Some d /\ improves (diff s) d = true
  else diff s' = diff s.
Proof.
  intros H. apply Fuzz_body_Ok in H as (ns & s1 & Hm & H).
  pose proof (mutate_engine _ _ _ _ Hm) as [g ->].
  destruct v; simpl.
  - now destruct H as [_ ->].
  - now destruct H as (_ & r1 & r2 & _ & _ & _ & ->).
  - destruct H as (_ & r1 & r2 & _ & _ & Hi & _ & ->). eauto.
  - destruct H as (_ & r1 & r2 & _ & _ & Hi & _ & ->). eauto.
Qed.


(** ** The acceptance rule *)

Lemma improves_iff best curDiff :
  improves best curDiff = true <->
  best = None \/ exists d, best = Some d /\ ltb curDiff d = true.
Proof.
  destruct best as [d |]; simpl; split.
  - intros H. right. eauto.
  - intros [H | (d' & H & Hlt)]; [discriminate | now injection H as ->].
  - now left.
  - reflexivity.
Qed.

(** C1.  A candidate that passed the conditions is accepted exactly when no
    best difference is set yet or its difference is strictly below the best
    one (a tie is rejected); the best difference becomes the candidate's
    difference on acceptance and is untouched otherwise.  Over any run the
    best difference, once set, stays set, is unchanged when nothing was
    accepted and is strictly below its old value otherwise: it is never
    replaced by an equal or a larger value. *)
Theorem best_difference_strictly_decreases :
  (forall fuel s v s',
     Fuzz_body NumNumbers cfg fuel s = Ok v s' -> v <> ConditionFailed ->
     exists ns s1 res1 res2,
       mutate NumNumbers cfg fuel s = Ok ns s1 /\
       passes NumNumbers (conditions cfg) ns = true /\
       value_at NumNumbers ns (expr1 cfg) = Some res1 /\
       value_at NumNumbers ns (expr2 cfg) = Some res2 /\
       (accepted v = true <->
        diff s = None \/
        exists d, diff s = Some d /\ ltb (abs_difference res1 res2) d = true) /\
       (forall d, diff s = Some d ->
                  eqb (abs_difference res1 res2) d = true ->
                  accepted v = false) /\
       diff s' = (if accepted v then Some (abs_difference res1 res2)
                  else diff s) /\
       corpus s' = corpus s ++ (if accepted v then [ns] else []))
  /\
  (forall cycles fuel s vs s',
     Fuzz_loop NumNumbers cfg cycles fuel s = Ok vs s' ->
     match diff s with
     | None => diff s' = None <-> acceptances vs = O
     | Some d =>
         exists d', diff s' = Some d' /\
           if (acceptances vs =? 0)%nat then d' = d
           else ltb d' d = true /\ eqb d' d = false /\ ltb d d' = false
     end).
Proof.
  split.
  - intros fuel s v s' H Hv.
    apply Fuzz_body_Ok in H as (ns & s1 & Hm & H).
    pose proof (mutate_engine _ _ _ _ Hm) as [g Hg].
    assert (Hrule : forall res1 res2 b,
               improves (diff s) (abs_difference res1 res2) = b ->
               (b = true <->
                diff s = None \/
                exists d, diff s = Some d /\
                          ltb (abs_difference res1 res2) d = true) /\
               (forall d, diff s = Some d ->
                          eqb (abs_difference res1 res2) d = true ->
                          b = false)).
    { intros res1 res2 b <-. split; [apply improves_iff |].
      intros d Hd He. rewrite Hd. simpl.
      destruct (ltb (abs_difference res1 res2) d) eqn:Hlt; [| reflexivity].
      apply ltb_not_eqb in Hlt. congruence. }
    destruct v; [contradiction | | |].
    + destruct H as (Hp & res1 & res2 & H1 & H2 & Hi & ->).
      exists ns, s1, res1, res2. destruct (Hrule _ _ _ Hi) as [Ha Hb].
      repeat (split; [assumption |]). subst s1; simpl.
      now rewrite app_nil_r.
    + destruct H as (Hp & res1 & res2 & H1 & H2 & Hi & _ & ->).
      exists ns, s1, res1, res2. destruct (Hrule _ _ _ Hi) as [Ha Hb].
      repeat (split; [assumption |]). subst s1. split; reflexivity.
    + destruct H as (Hp & res1 & res2 & H1 & H2 & Hi & _ & ->).
      exists ns, s1, res1, res2. destruct (Hrule _ _ _ Hi) as [Ha Hb].
      repeat (split; [assumption |]). subst s1. split; reflexivity.
  - intros cycles fuel.
    apply (Fuzz_loop_run
             (fun s vs s' =>
                match diff s with
                | None => diff s' = None <-> acceptances vs = O
                | Some d =>
                    exists d', diff s' = Some d' /\
                      if (acceptances vs =? 0)%nat then d' = d
                      else ltb d' d = true /\ eqb d' d = false /\
                           ltb d d' = false
                end)).
    + intros s. destruct (diff s) as [d |]; [| easy]. now exists d.
    + intros s v s1 vs s2 Hb _ IH.
      apply Fuzz_body_diff in Hb.
      unfold acceptances in *; simpl.
      destruct (accepted v); simpl.
      * destruct Hb as (c & Hc & Hi). rewrite Hc in IH.
        destruct IH as (d' & Hd' & IH).
        assert (Hle : d' = c \/ ltb d' c = true).
        { destruct (length _ =? 0)%nat; [now left | right; apply IH]. }
        destruct (diff s) as [d |]; [| rewrite Hd'; easy].
        exists d'. split; [assumption |]. simpl in Hi.
        assert (Hlt : ltb d' d = true).
        { destruct Hle as [-> | Hle]; [assumption |].
          eapply ltb_trans; eassumption. }
        split; [assumption |].
        split; [now apply ltb_not_eqb | now apply ltb_asym].
      * now rewrite <- Hb.
Qed.

(** ** The corpus *)

Lemma Fuzz_eq cycles fuel s :
  Fuzz NumNumbers cfg cycles fuel s
  = Fuzz_loop NumNumbers cfg cycles fuel (upd_diff None s).
Proof. reflexivity. Qed.

Lemma Fuzz_body_Exit_corpus fuel s c s' :
  Fuzz_body NumNumbers cfg fuel s = Exit c s' -> corpus s' = corpus s.
Proof.
  intros H.
  now apply Fuzz_body_Exit in H
      as (_ & ? & ? & ? & ? & ? & ? & ? & ? & ? & ? & ?).
Qed.

(** *** Sampling never fails on a corpus that is not empty *)

Lemma mutate_defined fuel s :
  corpus s <> [] -> mutate NumNumbers cfg fuel s <> Undefined.
Proof.
  intros Hne. unfold mutate.
  destruct (getStatic_returns s Hne) as (base & s1 & Hg & _).
  unfold bind at 1. rewrite Hg. clear Hg Hne s.
  generalize 3%nat as j. intros j; revert base s1.
  induction j as [| j IH]; intros base s1; simpl; [discriminate |].
  unfold bind at 1. unfold mutate_step, bind.
  rewrite draw_size_eq. rewrite draw_size_eq.
  destruct (getRandomDouble fuel _) as [d s2 | | |] eqn:Hd;
    try discriminate; [apply IH |].
  now apply getRandomDouble_no_exit in Hd.
Qed.

Lemma Fuzz_body_defined fuel s :
  corpus s <> [] -> Fuzz_body NumNumbers cfg fuel s <> Undefined.
Proof.
  intros Hne H. unfold Fuzz_body, bind in H.
  destruct (mutate NumNumbers cfg fuel s) as [ns s1 | | |] eqn:Hm;
    try discriminate; [| now apply mutate_defined in Hm].
  destruct (test_conditions NumNumbers (conditions cfg) ns s1)
    as [b s2 | c s2 | |] eqn:Ht; try discriminate;
    [| now apply test_conditions_defined in Ht].
  destruct b; [discriminate |].
  rewrite numStructToDiff_eq in H.
  destruct (parser_compile _ (expr1 cfg)); [discriminate |].
  destruct (parser_compile _ (expr2 cfg)); [discriminate |].
  unfold get, corpus_push_back, set_diff, print, ret in H; simpl in H.
  destruct (improves _ _); [destruct (eqb _ zero) |]; discriminate.
Qed.

Lemma Fuzz_loop_defined cycles fuel s :
  corpus s <> [] -> Fuzz_loop NumNumbers cfg cycles fuel s <> Undefined.
Proof.
  revert s; induction cycles as [| cycles IH]; intros s Hne; [discriminate |].
  rewrite Fuzz_loop_S.
  destruct (Fuzz_body NumNumbers cfg fuel s) as [v s1 | | |] eqn:Hb;
    try discriminate; [| now apply Fuzz_body_defined in Hb].
  assert (Hne1 : corpus s1 <> []).
  { apply Fuzz_body_corpus in Hb as (ns & ? & _ & ->).
    destruct (corpus s); [contradiction | discriminate]. }
  specialize (IH s1 Hne1).
  destruct v; try discriminate;
    destruct (Fuzz_loop NumNumbers cfg cycles fuel s1); congruence.
Qed.


(** C3.  The constructor leaves exactly one assignment in the corpus, with
    [NumNumbers] slots that are all zero.  A pass appends its candidate when
    it accepts it and leaves the corpus alone otherwise, so that over a run
    the corpus keeps what it held, in place, and gains one member per
    acceptance: started on the constructed fuzzer, it holds [1 + k] members
    after [k] acceptances and is never empty, also when the process exits,
    so that sampling a member never fails. *)
Theorem corpus_grows_by_one_per_acceptance :
  (corpus (constructed NumNumbers) = [replicate NumNumbers zero]) /\
  (forall fuel s v s',
     Fuzz_body NumNumbers cfg fuel s = Ok v s' ->
     exists ns s1,
       mutate NumNumbers cfg fuel s = Ok ns s1 /\
       corpus s' = corpus s ++ (if accepted v then [ns] else [])) /\
  (forall cycles fuel s vs s',
     Fuzz_loop NumNumbers cfg cycles fuel s = Ok vs s' ->
     exists added,
       corpus s' = corpus s ++ added /\ length added = acceptances vs) /\
  (forall cycles fuel s c s',
     Fuzz_loop NumNumbers cfg cycles fuel s = Exit c s' ->
     exists added, corpus s' = corpus s ++ added) /\
  (forall cycles fuel vs s',
     Fuzz NumNumbers cfg cycles fuel (constructed NumNumbers) = Ok vs s' ->
     length (corpus s') = (1 + acceptances vs)%nat /\
     corpus s' <> [] /\
     corpus s' !! O = Some (replicate NumNumbers zero)) /\
  (forall cycles fuel c s',
     Fuzz NumNumbers cfg cycles fuel (constructed NumNumbers) = Exit c s' ->
     corpus s' <> [] /\
     corpus s' !! O = Some (replicate NumNumbers zero)) /\
  (forall cycles fuel,
     Fuzz NumNumbers cfg cycles fuel (constructed NumNumbers) <> Undefined).
Proof.
  assert (Hrun : forall cycles fuel s vs s',
             Fuzz_loop NumNumbers cfg cycles fuel s = Ok vs s' ->
             exists added,
               corpus s' = corpus s ++ added /\
               length added = acceptances vs).
  { intros cycles fuel.
    apply (Fuzz_loop_run
             (fun s vs s' =>
                exists added,
                  corpus s' = corpus s ++ added /\
                  length added = acceptances vs)).
    - intros s. exists []. now rewrite app_nil_r.
    - intros s v s1 vs s2 Hb _ (added & Ha & Hl).
      apply Fuzz_body_corpus in Hb as (ns & s0 & _ & Hc).
      exists ((if accepted v then [ns] else []) ++ added).
      rewrite Ha, Hc, <- app_assoc. split; [reflexivity |].
      unfold acceptances in *; simpl.
      destruct (accepted v); simpl; now rewrite Hl. }
  assert (Hexit : forall cycles fuel s c s',
             Fuzz_loop NumNumbers cfg cycles fuel s = Exit c s' ->
             exists added, corpus s' = corpus s ++ added).
  2: split; [reflexivity |];
     split; [apply Fuzz_body_corpus |];
     split; [exact Hrun |];
     split; [exact Hexit |];
     split; [| split].
  - intros cycles fuel s c s' H.
    destruct (Fuzz_loop_invariant
                (fun s' => exists added, corpus s' = corpus s ++ added) fuel)
      with (cycles := cycles) (s := s) as [_ HE].
    + intros s0 v s1 (added & Ha) Hb.
      apply Fuzz_body_corpus in Hb as (ns & ? & _ & Hc).
      eexists. rewrite Hc, Ha, <- app_assoc. reflexivity.
    + intros s0 c0 s1 (added & Ha) Hb.
      apply Fuzz_body_Exit_corpus in Hb. exists added. congruence.
    + exists []. now rewrite app_nil_r.
    + eapply HE; eassumption.
  - intros cycles fuel vs s' H. rewrite Fuzz_eq in H.
    apply Hrun in H as (added & Ha & Hl). simpl in Ha.
    rewrite Ha. simpl. rewrite Hl. repeat split. discriminate.
  - intros cycles fuel c s' H. rewrite Fuzz_eq in H.
    apply Hexit in H as (added & Ha). simpl in Ha.
    rewrite Ha. split; [discriminate | reflexivity].
  - intros cycles fuel. rewrite Fuzz_eq. apply Fuzz_loop_defined. discriminate.
Qed.

(** ** The conditions *)

Lemma passes_Forall cs ns :
  passes NumNumbers cs ns = true <->
  Forall (fun C => exists v, value_at NumNumbers ns C = Some v /\
                             eqb v one = true) cs.
Proof.
  unfold passes. rewrite forallb_forall, Forall_forall.
  split; intros H C HC.
  - apply list_elem_of_In in HC. specialize (H C HC). unfold holds in H.
    destruct (value_at NumNumbers ns C) as [v |]; [eauto | discriminate].
  - apply list_elem_of_In in HC. destruct (H C HC) as (v & Hv & He).
    unfold holds. now rewrite Hv.
Qed.

Lemma examined_split ns cs :
  passes NumNumbers cs ns = false ->
  exists pre C post,
    cs = pre ++ C :: post /\
    passes NumNumbers pre ns = true /\
    holds NumNumbers ns C = false /\
    examined NumNumbers ns cs = pre ++ [C].
Proof.
  induction cs as [| C cs IH]; simpl; [discriminate |].
  destruct (holds NumNumbers ns C) eqn:HC; simpl.
  - intros H. destruct (IH H) as (pre & C' & post & -> & Hp & HC' & He).
    exists (C :: pre), C', post. simpl. rewrite HC, He. auto.
  - intros _. exists [], C, cs. auto.
Qed.

(** C4.  The conditions are evaluated in order; the candidate passes exactly
    when every one of them evaluates to exactly [1.0], and the evaluation
    stops at the first one that does not.  A pass whose candidate fails a
    condition evaluates neither expression, and leaves the iteration
    counter, the corpus, the best difference and the output as they were. *)
Theorem conditions_filter_candidates :
  (forall cs ns s b s',
     test_conditions NumNumbers cs ns s = Ok b s' ->
     (b = false <->
      Forall (fun C => exists v, value_at NumNumbers ns C = Some v /\
                                 eqb v one = true) cs) /\
     (b = false -> compiled s' = compiled s ++ cs) /\
     (b = true ->
      exists pre C post,
        cs = pre ++ C :: post /\
        Forall (fun C => exists v, value_at NumNumbers ns C = Some v /\
                                   eqb v one = true) pre /\
        (exists v, value_at NumNumbers ns C = Some v /\ eqb v one = false) /\
        compiled s' = compiled s ++ pre ++ [C])) /\
  (forall fuel s v s',
     Fuzz_body NumNumbers cfg fuel s = Ok v s' ->
     exists ns s1,
       mutate NumNumbers cfg fuel s = Ok ns s1 /\
       (v = ConditionFailed <->
        passes NumNumbers (conditions cfg) ns = false) /\
       (v = ConditionFailed ->
        iter s' = iter s /\ corpus s' = corpus s /\ diff s' = diff s /\
        cout s' = cout s /\
        compiled s'
        = compiled s ++ examined NumNumbers ns (conditions cfg)) /\
       (v <> ConditionFailed ->
        iter s' = ((iter s + 1) mod size_t_modulus)%N /\
        compiled s'
        = compiled s ++ conditions cfg ++ [expr1 cfg; expr2 cfg])).
Proof.
  split.
  - intros cs ns s b s' H.
    pose proof H as Hrun.
    apply test_conditions_Ok in H as [-> ->].
    split; [| split].
    + rewrite <- passes_Forall. now destruct (passes NumNumbers cs ns).
    + intros Hp. apply negb_false_iff in Hp. simpl.
      now rewrite passes_examined.
    + intros Hp. apply negb_true_iff in Hp.
      destruct (examined_split ns cs Hp) as (pre & C & post & -> & Hpre & HC & He).
      exists pre, C, post. split; [reflexivity |].
      split; [now apply passes_Forall |].
      split; [| simpl; now rewrite He].
      unfold holds in HC.
      destruct (value_at NumNumbers ns C) as [v |] eqn:Hv; [eauto |].
      exfalso. eapply test_conditions_Ok_compiled; [exact Hrun | | exact Hv].
      rewrite He. apply in_or_app. right. now left.
  - intros fuel s v s' H.
    apply Fuzz_body_Ok in H as (ns & s1 & Hm & H).
    pose proof (mutate_engine _ _ _ _ Hm) as [g Hg].
    exists ns, s1. split; [assumption |]. subst s1.
    destruct v.
    + destruct H as [Hp ->]. split; [easy |]. split; [| easy].
      intros _. repeat split.
    + destruct H as (Hp & r1 & r2 & _ & _ & _ & ->).
      split; [split; [discriminate | congruence] |].
      split; [discriminate |]. intros _. split; [reflexivity |]. simpl.
      now rewrite (passes_examined _ _ Hp), <- app_assoc.
    + destruct H as (Hp & r1 & r2 & _ & _ & _ & _ & ->).
      split; [split; [discriminate | congruence] |].
      split; [discriminate |]. intros _. split; [reflexivity |]. simpl.
      now rewrite (passes_examined _ _ Hp), <- app_assoc.
    + destruct H as (Hp & r1 & r2 & _ & _ & _ & _ & ->).
      split; [split; [discriminate | congruence] |].
      split; [discriminate |]. intros _. split; [reflexivity |]. simpl.
      now rewrite (passes_examined _ _ Hp), <- app_assoc.
Qed.


(** ** Leaving the loop *)

Lemma Fuzz_loop_Exit cycles fuel s c s' :
  Fuzz_loop NumNumbers cfg cycles fuel s = Exit c s' ->
  exists s1, Fuzz_body NumNumbers cfg fuel s1 = Exit c s'.
Proof.
  revert s; induction cycles as [| cycles IH]; intros s H; [discriminate |].
  rewrite Fuzz_loop_S in H.
  destruct (Fuzz_body NumNumbers cfg fuel s) as [v s1 | c1 s1 | |] eqn:Hb;
    try discriminate.
  - destruct v; try discriminate;
      (destruct (Fuzz_loop NumNumbers cfg cycles fuel s1)
         as [vs1 s2 | c2 s2 | |] eqn:Hl; try discriminate;
       injection H as -> ->; eapply IH; eassumption).
  - injection H as -> ->. eauto.
Qed.

Lemma Fuzz_loop_length cycles fuel s vs s' :
  Fuzz_loop NumNumbers cfg cycles fuel s = Ok vs s' ->
  last vs <> Some Solved -> length vs = cycles.
Proof.
  revert s vs; induction cycles as [| cycles IH]; intros s vs H Hl.
  - now injection H as <- <-.
  - rewrite Fuzz_loop_S in H.
    destruct (Fuzz_body NumNumbers cfg fuel s) as [v s1 | | |];
      try discriminate.
    destruct v;
      try (destruct (Fuzz_loop NumNumbers cfg cycles fuel s1)
             as [vs1 s2 | | |] eqn:Hr; try discriminate;
           injection H as <- <-; simpl; f_equal;
           eapply IH; [exact Hr |];
           intros Hs; apply Hl; destruct vs1; [discriminate | exact Hs]).
    injection H as <- <-. now contradiction Hl.
Qed.

(** C2 (as the program has it).  A pass makes [Fuzz] return exactly when its
    candidate passed the conditions, was accepted, and has a difference equal
    to [0.0]; the solution report is then the last thing printed.  In a run,
    [Solved] can only be the last verdict, and a run whose last verdict is
    not [Solved] has made every pass it was given: nothing else makes the
    loop return.  The loop is also left when the process exits, with status
    1, from the [calc] that was handed a text the evaluator refuses.  A pass
    ends in one of these ways as soon as the corpus is not empty and
    [getRandomDouble] meets a draw that is not zero. *)
Theorem loop_returns_only_on_exact_match :
  (forall fuel s v s',
     Fuzz_body NumNumbers cfg fuel s = Ok v s' ->
     exists ns s1,
       mutate NumNumbers cfg fuel s = Ok ns s1 /\
       (v = Solved <->
        passes NumNumbers (conditions cfg) ns = true /\
        exists res1 res2,
          value_at NumNumbers ns (expr1 cfg) = Some res1 /\
          value_at NumNumbers ns (expr2 cfg) = Some res2 /\
          improves (diff s) (abs_difference res1 res2) = true /\
          eqb (abs_difference res1 res2) zero = true) /\
       (v = Solved ->
        exists out, cout s' = out ++ solution_report NumNumbers cfg ns)) /\
  (forall cycles fuel s vs s',
     Fuzz_loop NumNumbers cfg cycles fuel s = Ok vs s' ->
     (forall pre post, vs = pre ++ Solved :: post -> post = []) /\
     (last vs <> Some Solved -> length vs = cycles)) /\
  (forall cycles fuel s c s',
     Fuzz_loop NumNumbers cfg cycles fuel s = Exit c s' ->
     c = 1 /\
     exists ns e err,
       In e (conditions cfg ++ [expr1 cfg; expr2 cfg]) /\
       parser_compile (bindings NumNumbers ns) e = inl err /\
       exists out, cout s' = out ++ error_report err e) /\
  (forall fuel s,
     (forall g, draws_nonzero fuel g = true) -> corpus s <> [] ->
     (exists v s', Fuzz_body NumNumbers cfg fuel s = Ok v s') \/
     (exists s', Fuzz_body NumNumbers cfg fuel s = Exit 1 s')).
Proof.
  split; [| split; [| split; [| apply Fuzz_body_returns]]].
  - intros fuel s v s' H.
    apply Fuzz_body_Ok in H as (ns & s1 & Hm & H).
    exists ns, s1. split; [assumption |]. split.
    + split.
      * intros ->. destruct H as (Hp & r1 & r2 & H1 & H2 & Hi & Hz & _).
        split; [assumption |]. exists r1, r2. auto.
      * intros (Hp & r1 & r2 & H1 & H2 & Hi & Hz).
        destruct v; [| | | reflexivity].
        -- destruct H as [Hp' _]. congruence.
        -- destruct H as (_ & r1' & r2' & H1' & H2' & Hi' & _). congruence.
        -- destruct H as (_ & r1' & r2' & H1' & H2' & _ & Hz' & _). congruence.
    + intros ->. destruct H as (_ & r1 & r2 & _ & _ & _ & _ & ->).
      eexists. reflexivity.
  - intros cycles fuel s vs s' H. split.
    + refine (Fuzz_loop_run
                (fun _ vs _ => forall pre post,
                     vs = pre ++ Solved :: post -> post = [])
                fuel _ _ cycles s vs s' H).
      * intros _ [| ? ?] post H0; discriminate.
      * clear. intros s v s1 vs s2 _ Hv IH [| p pre] post H; simpl in H.
        -- injection H as -> <-. now apply Hv.
        -- injection H as _ ->. eapply IH. reflexivity.
    + intros Hl. eapply Fuzz_loop_length; eassumption.
  - intros cycles fuel s c s' H.
    apply Fuzz_loop_Exit in H as [s1 H].
    apply Fuzz_body_Exit in H
        as (-> & ns & s2 & e & err & _ & He & _ & Hin & Hc & _).
    split; [reflexivity |]. exists ns, e, err. eauto.
Qed.

(** C7 (as the program has it).  [calc] hands its text to [parser.compile]
    on every call.  When the evaluator refuses the text, [calc] prints the
    error and the text and the process exits with status 1.  This happens
    inside a pass of the loop, after [mutate] returned, for a text among the
    conditions and the two expressions.  A pass that returns a verdict has
    compiled the conditions it looked at and, when they all hold, the two
    expressions, again. *)
Theorem compile_errors_surface_inside_the_loop :
  (forall e ns s,
     match parser_compile (bindings NumNumbers ns) e with
     | inl err =>
         calc NumNumbers e ns s
         = Exit 1 (upd_cout (cout s ++ error_report err e)
                     (upd_compiled (compiled s ++ [e]) s))
     | inr expression =>
         calc NumNumbers e ns s
         = Ok (expression_value expression)
             (upd_compiled (compiled s ++ [e]) s)
     end) /\
  (forall fuel s c s',
     Fuzz_body NumNumbers cfg fuel s = Exit c s' ->
     c = 1 /\
     exists ns s1 e err,
       mutate NumNumbers cfg fuel s = Ok ns s1 /\
       parser_compile (bindings NumNumbers ns) e = inl err /\
       last (compiled s') = Some e /\
       In e (conditions cfg ++ [expr1 cfg; expr2 cfg]) /\
       cout s' = cout s ++ error_report err e /\
       corpus s' = corpus s /\ diff s' = diff s /\ iter s' = iter s) /\
  (forall fuel s v s',
     Fuzz_body NumNumbers cfg fuel s = Ok v s' ->
     exists ns s1,
       mutate NumNumbers cfg fuel s = Ok ns s1 /\
       compiled s'
       = compiled s ++ examined NumNumbers ns (conditions cfg)
         ++ (if passes NumNumbers (conditions cfg) ns
             then [expr1 cfg; expr2 cfg] else [])).
Proof.
  split; [| split].
  - intros e ns s. rewrite calc_eq.
    now destruct (parser_compile (bindings NumNumbers ns) e).
  - apply Fuzz_body_Exit.
  - intros fuel s v s' H.
    apply Fuzz_body_Ok in H as (ns & s1 & Hm & H).
    pose proof (mutate_engine _ _ _ _ Hm) as [g Hg].
    exists ns, s1. split; [assumption |]. subst s1.
    destruct v.
    + destruct H as [-> ->]. simpl. now rewrite app_nil_r.
    + destruct H as (-> & r1 & r2 & _ & _ & _ & ->). simpl.
      now rewrite <- app_assoc.
    + destruct H as (-> & r1 & r2 & _ & _ & _ & _ & ->). simpl.
      now rewrite <- app_assoc.
    + destruct H as (-> & r1 & r2 & _ & _ & _ & _ & ->). simpl.
      now rewrite <- app_assoc.
Qed.


(** ** Mutation *)

Lemma perturb_other_slots whichNum mu d ns j :
  j <> whichNum -> perturb cfg whichNum mu d ns !! j = ns !! j.
Proof.
  intros Hj. unfold perturb.
  destruct (round cfg), mu;
    now rewrite ?list_lookup_alter_ne by (intros ->; contradiction).
Qed.












(** ** Round mode *)

Lemma all_integral_seed : all_integral (NumStruct_zero NumNumbers).
Proof. apply Forall_replicate. reflexivity. Qed.

Lemma mutate_integral fuel s ns s' :
  round cfg = true -> (0 < NumNumbers)%nat -> unifDouble_contract ->
  Forall all_integral (corpus s) ->
  mutate NumNumbers cfg fuel s = Ok ns s' -> all_integral ns.
Proof.
  intros Hr HN Hc Hs H.
  apply mutate_Ok in H as [(base & Hin & Hp) _]; try assumption.
  eapply perturbs_integral; [assumption | | exact Hp].
  rewrite Forall_forall in Hs. apply Hs. now apply list_elem_of_In.
Qed.

(** In round mode every run keeps the members of the corpus integral. *)
Lemma corpus_integral cycles fuel s :
  round cfg = true -> (0 < NumNumbers)%nat -> unifDouble_contract ->
  Forall all_integral (corpus s) ->
  (forall vs s',
     Fuzz_loop NumNumbers cfg cycles fuel s = Ok vs s' ->
     Forall all_integral (corpus s')) /\
  (forall c s',
     Fuzz_loop NumNumbers cfg cycles fuel s = Exit c s' ->
     Forall all_integral (corpus s')).
Proof.
  intros Hr HN Hc Hs.
  apply (Fuzz_loop_invariant (fun s => Forall all_integral (corpus s)));
    [| | assumption].
  - intros s0 v s1 H0 Hb.
    apply Fuzz_body_corpus in Hb as (ns & s2 & Hm & ->).
    apply Forall_app. split; [assumption |].
    destruct (accepted v); [| constructor].
    constructor; [| constructor].
    eapply mutate_integral; eassumption.
  - intros s0 c s1 H0 Hb. apply Fuzz_body_Exit_corpus in Hb. congruence.
Qed.

(** C6.  In round mode a pass of [mutate] truncates the slot it changed,
    which then holds an integral value (a value that is integral already is
    left as it is); every assignment [mutate] makes from
    a corpus of integral assignments is integral; and so is every member of
    the corpus in every run of the constructed fuzzer, whose seed is all
    zeros.  The truncation is toward zero: the slot is left at the integer
    part of the sum or difference the pass computed, the integer between
    zero and that value that is nearest to it. *)
Theorem round_mode_keeps_assignments_integral :
  round cfg = true -> (0 < NumNumbers)%nat -> unifDouble_contract ->
  (forall whichNum mu d ns,
     perturb cfg whichNum mu d ns !! whichNum
     = truncate <$> ((match mu with
                      | AddRandom => fun x => add x d
                      | SubRandom => fun x => sub x d
                      end) <$> ns !! whichNum)) /\
  (forall whichNum mu d ns x,
     in_unif_range d = true -> Forall (fun y => is_nan y = false) ns ->
     perturb cfg whichNum mu d ns !! whichNum = Some x ->
     integral x = true) /\
  (forall x, integral x = true -> eqb (truncate x) x = true) /\
  (forall fuel s ns s',
     Forall all_integral (corpus s) ->
     mutate NumNumbers cfg fuel s = Ok ns s' -> all_integral ns) /\
  (forall cycles fuel vs s',
     Fuzz NumNumbers cfg cycles fuel (constructed NumNumbers) = Ok vs s' ->
     Forall all_integral (corpus s')) /\
  (forall cycles fuel c s',
     Fuzz NumNumbers cfg cycles fuel (constructed NumNumbers) = Exit c s' ->
     Forall all_integral (corpus s')) /\
  (forall x,
     valid x = true -> is_finite x = true ->
     integer_value (truncate x) = Some (integer_part x)) /\
  (forall whichNum mu d ns x y,
     ns !! whichNum = Some x ->
     y = match mu with
         | AddRandom => add x d
         | SubRandom => sub x d
         end ->
     valid y = true -> is_finite y = true ->
     exists z,
       perturb cfg whichNum mu d ns !! whichNum = Some z /\
       integer_value z = Some (integer_part y)).
Proof.
  intros Hr HN Hc.
  assert (Hseed : Forall all_integral
                    (corpus (upd_diff None (constructed NumNumbers)))).
  { constructor; [apply all_integral_seed | constructor]. }
  assert (Hslot : forall whichNum mu d ns,
             perturb cfg whichNum mu d ns !! whichNum
             = truncate <$> ((match mu with
                              | AddRandom => fun x => add x d
                              | SubRandom => fun x => sub x d
                              end) <$> ns !! whichNum)).
  { intros i mu d ns. unfold perturb. rewrite Hr.
    destruct mu; rewrite list_alter_alter_eq, list_lookup_alter_eq;
      now destruct (ns !! i). }
  split; [exact Hslot |].
  split; [| split; [apply truncate_of_integral |
                    split; [| split; [| split; [| split]]]]];
    [| | | | apply truncate_value |
     intros i mu d ns x y Hx Hy Hv Hf; rewrite Hslot, Hx;
     exists (truncate y); split;
     [subst y; now destruct mu | now apply truncate_value]].
  - intros i mu d ns x Hd Hns H.
    eapply perturb_slot_integral; try eassumption.
    now apply in_unif_range_finite.
  - intros fuel s ns s' Hs H. eapply mutate_integral; eassumption.
  - intros cycles fuel vs s' H. rewrite Fuzz_eq in H.
    eapply (proj1 (corpus_integral cycles fuel _ Hr HN Hc Hseed)); eassumption.
  - intros cycles fuel c s' H. rewrite Fuzz_eq in H.
    eapply (proj2 (corpus_integral cycles fuel _ Hr HN Hc Hseed)); eassumption.
Qed.

(** ** The difference *)

Lemma abs_difference_gap res1 res2 : abs_difference res1 res2 = gap res1 res2.
Proof.
  unfold abs_difference, gap.
  destruct (ltb res2 res1); [reflexivity | apply abs_sub_sym].
Qed.

(** A best difference that is set is an absolute value. *)
Lemma best_difference_is_abs cycles fuel s :
  (forall d, diff s = Some d -> exists x, d = abs x) ->
  (forall vs s',
     Fuzz_loop NumNumbers cfg cycles fuel s = Ok vs s' ->
     forall d, diff s' = Some d -> exists x, d = abs x) /\
  (forall c s',
     Fuzz_loop NumNumbers cfg cycles fuel s = Exit c s' ->
     forall d, diff s' = Some d -> exists x, d = abs x).
Proof.
  apply (Fuzz_loop_invariant
           (fun s => forall d, diff s = Some d -> exists x, d = abs x)).
  - intros s0 v s1 H0 Hb d Hd.
    apply Fuzz_body_Ok in Hb as (ns & s2 & Hm & Hb).
    pose proof (mutate_engine _ _ _ _ Hm) as [g ->].
    destruct v.
    + destruct Hb as [_ ->]. now apply H0.
    + destruct Hb as (_ & r1 & r2 & _ & _ & _ & ->). now apply H0.
    + destruct Hb as (_ & r1 & r2 & _ & _ & _ & _ & ->).
      injection Hd as <-. eexists; reflexivity.
    + destruct Hb as (_ & r1 & r2 & _ & _ & _ & _ & ->).
      injection Hd as <-. eexists; reflexivity.
  - intros s0 c s1 H0 Hb d Hd.
    apply Fuzz_body_Exit in Hb
        as (_ & ? & ? & ? & ? & _ & _ & _ & _ & _ & _ & Hdd & _).
    apply H0. congruence.
Qed.

(** C9 (as the program has it).  The difference of a scored candidate is the
    absolute value of the gap between the two results.  It is never
    negative, but it is NaN when the gap is (a NaN result, or two infinite
    results of the same sign), and NaN is not [>= 0].  Whenever the best
    difference of a run of the constructed fuzzer is set, it is not below
    zero: it is [>= 0] or NaN. *)
Theorem best_difference_is_not_negative :
  (forall res1 res2, abs_difference res1 res2 = gap res1 res2) /\
  (forall res1 res2,
     ltb (abs_difference res1 res2) zero = false /\
     (is_nan (abs_difference res1 res2) = true <->
      is_nan res1 = true \/ is_nan res2 = true \/
      exists s, res1 = S754_infinity s /\ res2 = S754_infinity s) /\
     (is_nan (abs_difference res1 res2) = false ->
      leb zero (abs_difference res1 res2) = true)) /\
  (forall cycles fuel vs s' d,
     Fuzz NumNumbers cfg cycles fuel (constructed NumNumbers) = Ok vs s' ->
     diff s' = Some d ->
     ltb d zero = false /\ (leb zero d = true \/ is_nan d = true)).
Proof.
  split; [apply abs_difference_gap |]. split.
  - intros res1 res2. rewrite abs_difference_gap. unfold gap.
    split; [apply abs_not_negative |].
    split; [rewrite abs_nan; apply sub_nan_iff |].
    intros Hn. destruct (abs_nonneg_or_nan (sub res1 res2)) as [H | H];
      [congruence | assumption].
  - intros cycles fuel vs s' d H Hd. rewrite Fuzz_eq in H.
    destruct (proj1 (best_difference_is_abs cycles fuel
                       (upd_diff None (constructed NumNumbers))
                       ltac:(intros ? ?; discriminate))
                _ _ H _ Hd) as [x ->].
    split; [apply abs_not_negative |].
    destruct (abs_nonneg_or_nan x); auto.
Qed.


End Properties.


(** * The first cycle on one variable *)

Section FirstCycle.

Context `{ET : ExprTk} `{RS : RandomSource}.
Variable mode : bool.




End FirstCycle.

(** * Runs in round mode *)

Section RoundRun.

Context `{ET : ExprTk} `{RS : RandomSource}.
Variable NumNumbers : nat.
Variable cfg : Config.

Lemma Fuzz_loop_invariant2 (I J : State -> Prop) fuel :
  (forall s v s', I s -> Fuzz_body NumNumbers cfg fuel s = Ok v s' -> I s') ->
  (forall s c s', I s -> Fuzz_body NumNumbers cfg fuel s = Exit c s' -> J s') ->
  forall cycles s, I s ->
    (forall vs s', Fuzz_loop NumNumbers cfg cycles fuel s = Ok vs s' -> I s') /\
    (forall c s', Fuzz_loop NumNumbers cfg cycles fuel s = Exit c s' -> J s').
Proof.
  intros HOk HExit. induction cycles as [| cycles IH]; intros s Hs.
  - split; [intros vs s' H; now injection H as <- <- | discriminate].
  - rewrite Fuzz_loop_S.
    destruct (Fuzz_body NumNumbers cfg fuel s) as [v s1 | c s1 | |] eqn:Hb.
    + specialize (IH s1 (HOk _ _ _ Hs Hb)) as [IH1 IH2].
      destruct v;
        try (destruct (Fuzz_loop NumNumbers cfg cycles fuel s1)
               as [vs1 s2 | c s2 | |] eqn:Hl;
             split; intros ? ? H; try discriminate H;
             [injection H as <- <-; eapply IH1; reflexivity
             | injection H as <- <-; eapply IH2; reflexivity]).
      split; intros ? ? H; [| discriminate].
      injection H as <- <-. eapply HOk; eassumption.
    + split; intros ? ? H; [discriminate |].
      injection H as <- <-. eapply HExit; eassumption.
    + split; discriminate.
    + split; discriminate.
Qed.

(** With enough fuel for the draws of zero, the loop makes the passes asked
    of it or the process exits. *)
Lemma Fuzz_loop_returns cycles fuel s :
  (forall g, draws_nonzero fuel g = true) -> corpus s <> [] ->
  (exists vs s', Fuzz_loop NumNumbers cfg cycles fuel s = Ok vs s') \/
  (exists s', Fuzz_loop NumNumbers cfg cycles fuel s = Exit 1 s').
Proof.
  intros Hf. revert s; induction cycles as [| cycles IH]; intros s Hne.
  - left. now exists [], s.
  - rewrite Fuzz_loop_S.
    destruct (Fuzz_body_returns NumNumbers cfg fuel s Hf Hne)
      as [(v & s1 & Hb) | (s1 & Hb)]; rewrite Hb; [| right; eauto].
    assert (Hne1 : corpus s1 <> []).
    { apply Fuzz_body_corpus in Hb as (ns & s2 & _ & ->).
      destruct (corpus s); [contradiction | discriminate]. }
    destruct v; try (left; eauto; fail);
      (destruct (IH s1 Hne1) as [(vs & s2 & H) | (s2 & H)]; rewrite H;
       [left | right]; eauto).
Qed.

(** In round mode the slot a pass changes is truncated after the sum or
    the difference was stored in it. *)
Lemma perturb_round_slot whichNum mu d ns :
  round cfg = true ->
  perturb cfg whichNum mu d ns !! whichNum
  = truncate <$> ((match mu with
                   | AddRandom => fun x => add x d
                   | SubRandom => fun x => sub x d
                   end) <$> ns !! whichNum).
Proof.
  intros Hr. unfold perturb. rewrite Hr.
  destruct mu; rewrite list_alter_alter_eq, list_lookup_alter_eq;
    now destruct (ns !! whichNum).
Qed.

Lemma integral_search_step fuel s v s' :
  round cfg = true -> (0 < NumNumbers)%nat -> unifDouble_contract ->
  integral_search NumNumbers cfg [] s ->
  Fuzz_body NumNumbers cfg fuel s = Ok v s' ->
  integral_search NumNumbers cfg [] s'.
Proof.
  intros Hr HN Hc ([members Hm] & Hi & reports & Ho & Hf) Hb.
  rewrite app_nil_r in Ho.
  apply Fuzz_body_Ok in Hb as (ns & s1 & Hmu & Hb).
  pose proof (mutate_integral NumNumbers cfg _ _ _ _ Hr HN Hc Hi Hmu) as Hns.
  pose proof (mutate_engine _ _ _ _ _ _ Hmu) as [g ->].
  destruct v.
  - destruct Hb as [_ ->]. unfold integral_search. simpl.
    split; [eauto |]. split; [assumption |].
    exists reports. rewrite app_nil_r. auto.
  - destruct Hb as (_ & r1 & r2 & _ & _ & _ & ->).
    unfold integral_search. simpl.
    split; [eauto |]. split; [assumption |].
    exists reports. rewrite app_nil_r. auto.
  - destruct Hb as (_ & r1 & r2 & _ & _ & _ & _ & ->).
    unfold integral_search. simpl.
    split; [rewrite Hm; now eexists |].
    split; [apply Forall_app; split; [assumption | now constructor] |].
    exists (reports
            ++ [progress_report NumNumbers ((iter s + 1) mod size_t_modulus)%N
                  (length (corpus s ++ [ns])) ns r1 r2
                  (abs_difference r1 r2)]).
    split; [rewrite Ho, concat_app; simpl; now rewrite !app_nil_r |].
    apply Forall_app. split; [assumption |]. constructor; [| constructor].
    eexists _, _, ns, r1, r2, _. split; [assumption | left; reflexivity].
  - destruct Hb as (_ & r1 & r2 & _ & _ & _ & _ & ->).
    unfold integral_search. simpl.
    split; [rewrite Hm; now eexists |].
    split; [apply Forall_app; split; [assumption | now constructor] |].
    exists (reports
            ++ [progress_report NumNumbers ((iter s + 1) mod size_t_modulus)%N
                  (length (corpus s ++ [ns])) ns r1 r2
                  (abs_difference r1 r2)
                ++ solution_report NumNumbers cfg ns]).
    split; [rewrite Ho, concat_app; simpl;
            now rewrite !app_nil_r, <- app_assoc |].
    apply Forall_app. split; [assumption |]. constructor; [| constructor].
    eexists _, _, ns, r1, r2, _. split; [assumption | right; reflexivity].
Qed.

(** In round mode every run of the constructed fuzzer searches over
    integral assignments only, also when the process exits. *)
Lemma integral_search_run cycles fuel :
  round cfg = true -> (0 < NumNumbers)%nat -> unifDouble_contract ->
  (forall vs s',
     Fuzz NumNumbers cfg cycles fuel (constructed NumNumbers) = Ok vs s' ->
     integral_search NumNumbers cfg [] s') /\
  (forall c s',
     Fuzz NumNumbers cfg cycles fuel (constructed NumNumbers) = Exit c s' ->
     exists err e, integral_search NumNumbers cfg (error_report err e) s').
Proof.
  intros Hr HN Hc. rewrite Fuzz_eq.
  apply (Fuzz_loop_invariant2
           (integral_search NumNumbers cfg [])
           (fun s' => exists err e,
                        integral_search NumNumbers cfg (error_report err e) s')).
  - intros s v s' Hs Hb. eapply integral_search_step; eassumption.
  - intros s c s' ([members Hm] & Hi & reports & Ho & Hf) Hb.
    rewrite app_nil_r in Ho.
    apply Fuzz_body_Exit in Hb
      as (_ & ns & s1 & e & err & _ & _ & _ & _ & Hco & Hcs & _).
    exists err, e. unfold integral_search.
    split; [rewrite Hcs, Hm; now eexists |].
    split; [now rewrite Hcs |].
    exists reports. rewrite Hco, Ho. auto.
  - split; [now eexists |].
    split; [constructor; [apply all_integral_seed | constructor] |].
    exists []. split; [reflexivity | constructor].
Qed.

End RoundRun.

(** * [main] *)

(** C10.  [main] never passes the [round] argument, whose default is [true]:
    whatever the command line, the fuzzer it constructs is in round mode and
    every pass of [mutate] truncates the slot it changed.  The process is a
    run of that fuzzer, and as long as [unifDouble] keeps its range it
    searches over integral assignments only: at every point of the run the
    corpus is the zero seed followed by integral assignments, the candidate
    [mutate] makes next is integral, and everything printed is reports of
    integral assignments, followed by the error report when the process
    exits. *)
Theorem main_always_runs_in_round_mode :
  (forall argv, round (main_fuzzer argv) = true) /\
  (forall (ET : ExprTk) (RS : RandomSource),
     unifDouble_contract ->
     forall argv cycles fuel,
       (2 < length argv)%nat ->
       (forall whichNum mu d ns,
          perturb (main_fuzzer argv) whichNum mu d ns !! whichNum
          = truncate <$> ((match mu with
                           | AddRandom => fun x => add x d
                           | SubRandom => fun x => sub x d
                           end) <$> ns !! whichNum)) /\
       (forall r s',
          main argv cycles fuel = Ok r s' ->
          (exists vs,
             Fuzz main_NumNumbers
               (EquationFuzzer (nth 1 argv EmptyString)
                  (nth 2 argv EmptyString) (drop 3 argv) true)
               cycles fuel (constructed main_NumNumbers)
             = Ok vs s' /\
             (r = Some 0 <-> last vs = Some Solved) /\
             (r = None <-> last vs <> Some Solved)) /\
          integral_search main_NumNumbers (main_fuzzer argv) [] s' /\
          (forall ns s1,
             mutate main_NumNumbers (main_fuzzer argv) fuel s' = Ok ns s1 ->
             all_integral ns)) /\
       (forall c s',
          main argv cycles fuel = Exit c s' ->
          exists err e,
            integral_search main_NumNumbers (main_fuzzer argv)
              (error_report err e) s') /\
       ((forall g, draws_nonzero fuel g = true) ->
        (exists r s', main argv cycles fuel = Ok r s') \/
        (exists s', main argv cycles fuel = Exit 1 s'))).
Proof.
  split; [reflexivity |].
  intros ET RS Hc argv cycles fuel Hargc.
  assert (HN : (0 < main_NumNumbers)%nat) by (unfold main_NumNumbers; lia).
  destruct (integral_search_run main_NumNumbers (main_fuzzer argv) cycles fuel
              eq_refl HN Hc) as [HOk HExit].
  split; [intros i mu d ns; now apply perturb_round_slot |].
  unfold main. apply Nat.leb_gt in Hargc. rewrite Hargc. unfold bind.
  change (EquationFuzzer (nth 1 argv EmptyString) (nth 2 argv EmptyString)
            (drop 3 argv) true) with (main_fuzzer argv).
  destruct (Fuzz main_NumNumbers (main_fuzzer argv) cycles fuel
              (constructed main_NumNumbers)) as [vs s1 | c s1 | |] eqn:HF.
  - specialize (HOk vs s1 eq_refl).
    split; [| split; [intros c s' H; now destruct (last vs) as [[] |] |]].
    + intros r s' H.
      assert (Hrs : s' = s1 /\ (r = Some 0 <-> last vs = Some Solved) /\
                    (r = None <-> last vs <> Some Solved)).
      { destruct (last vs) as [[] |]; injection H as <- <-;
          (split; [reflexivity |]); split; split; intros H0;
          try discriminate; try reflexivity; try congruence;
          now contradiction H0. }
      destruct Hrs as (-> & Hr1 & Hr2).
      split; [exists vs; auto |]. split; [assumption |].
      intros ns s2 Hm. destruct HOk as (_ & Hi & _).
      eapply mutate_integral; try eassumption. reflexivity.
    + intros _. left. destruct (last vs) as [[] |]; eauto.
  - specialize (HExit c s1 eq_refl).
    split; [intros r s' H; discriminate |].
    split; [intros c' s' H; now injection H as <- <- |].
    intros Hf.
    rewrite Fuzz_eq in HF. apply Fuzz_loop_Exit in HF as [s0 HF].
    apply Fuzz_body_Exit in HF as [-> _]. right. eauto.
  - exfalso. rewrite Fuzz_eq in HF. revert HF.
    apply Fuzz_loop_defined. discriminate.
  - split; [intros r s' H; discriminate |].
    split; [intros c' s' H; discriminate |].
    intros Hf. exfalso.
    rewrite Fuzz_eq in HF.
    destruct (Fuzz_loop_returns main_NumNumbers (main_fuzzer argv) cycles fuel
                (upd_diff None (constructed main_NumNumbers)) Hf)
      as [(vs & s' & H) | (s' & H)]; [discriminate | |]; congruence.
Qed.

(** The dimension [main] chooses satisfies the [static_assert]. *)
Lemma main_NumNumbers_ok : NumNumbers_ok main_NumNumbers.
Proof. unfold NumNumbers_ok, main_NumNumbers. lia. Qed.

(** * The small collaborators *)

Lemma scripted_contract sizes doubles :
  forallb in_unif_range doubles = true ->
  @unifDouble_contract (scripted sizes doubles).
Proof.
  intros H [i j]. simpl. clear i. revert j.
  induction doubles as [| d doubles IH]; intros j.
  - now destruct j.
  - simpl in H. apply andb_true_iff in H as [Hd H].
    destruct j; [exact Hd | now apply IH].
Qed.


Lemma solving_source_contract : @unifDouble_contract solving_source.
Proof. apply scripted_contract. vm_compute. reflexivity. Qed.



Lemma fraction_source_contract : @unifDouble_contract fraction_source.
Proof. apply scripted_contract. vm_compute. reflexivity. Qed.




(** * Sample runs of the properties *)

(** In the sample run the best difference is 60 after the first pass; the
    next two passes reject 120 and accept 3. *)
Lemma best_difference_sample :
  exists d', diff (sample_state 3) = Some d' /\
             ltb d' (of_Z 60) = true /\ eqb d' (of_Z 60) = false /\
             ltb (of_Z 60) d' = false.
Proof.
  exact (proj2 (@best_difference_strictly_decreases
                  small_exprtk sample_source 1 sample_cfg)
           2%nat 1%nat (sample_state 1) [NotBetter; Improved] (sample_state 3)
           ltac:(vm_compute; reflexivity)).
Defined.

(** C2 fails as stated: the loop has another way out.  With a first
    expression the evaluator refuses, the first pass ends the process with
    status 1 from inside the loop, without a solution. *)
Lemma compile_error_ends_the_loop :
  @Fuzz small_exprtk sample_source 1 broken_cfg 1 1
    (@constructed sample_source 1)
  = Exit 1 broken_state.
Proof. vm_compute. reflexivity. Qed.

(** On draws of [0.5] in round mode the first candidate is [a = 0]: the
    pass returns and the solution report ends the output. *)
Lemma exact_match_sample :
  exists ns s1,
    @mutate solving_source 1 sample_cfg 1 (@constructed solving_source 1)
    = Ok ns s1 /\
    exists out,
      cout solved_state = out ++ solution_report 1 sample_cfg ns.
Proof.
  destruct (proj1 (@loop_returns_only_on_exact_match
                     small_exprtk solving_source 1 sample_cfg)
              1%nat (@constructed solving_source 1) Solved solved_state
              ltac:(vm_compute; reflexivity))
    as (ns & s1 & Hm & _ & Hs).
  exists ns, s1. split; [exact Hm | exact (Hs eq_refl)].
Defined.

(** The sample run accepts twice in three passes: the corpus has three
    members. *)
Lemma corpus_size_sample :
  length (corpus (sample_state 3))
  = (1 + acceptances [Improved; NotBetter; Improved])%nat.
Proof.
  exact (proj1 (proj1 (proj2 (proj2 (proj2 (proj2
           (@corpus_grows_by_one_per_acceptance
              small_exprtk sample_source 1 sample_cfg)))))
           3%nat 1%nat [Improved; NotBetter; Improved] (sample_state 3)
           ltac:(vm_compute; reflexivity))).
Defined.

(** Of the conditions [1], [0] and a refused text, the filter looks at the
    first two only. *)
Lemma short_circuit_sample :
  exists pre C post,
    ["1"; "0"; "a+"]%string = pre ++ C :: post /\
    Forall (fun C => exists v, @value_at small_exprtk 1 [zero] C = Some v /\
                               eqb v one = true) pre /\
    (exists v, @value_at small_exprtk 1 [zero] C = Some v /\
               eqb v one = false) /\
    ["1"; "0"]%string = [] ++ pre ++ [C].
Proof.
  exact (proj2 (proj2
           (proj1 (@conditions_filter_candidates
                     small_exprtk sample_source 1 sample_cfg)
              ["1"; "0"; "a+"]%string [zero] (@constructed sample_source 1) true
              (upd_compiled ["1"; "0"]%string (@constructed sample_source 1))
              ltac:(vm_compute; reflexivity)))
           eq_refl).
Defined.


(** On draws of [2.5] the truncation acts in every step: the candidate of
    the first pass is [a = 6], where the same draws give [a = 7.5] without
    round mode, and every member of the corpus is integral.  Truncated,
    [2.5] is 2 and [-2.5] is -2. *)
Lemma round_mode_sample :
  corpus fraction_state = [[zero]; [of_Z 6]] /\
  (exists s',
     @mutate fraction_source 1 (one_variable_cfg false) 1
       (@constructed fraction_source 1)
     = Ok [seven_and_a_half] s') /\
  integral seven_and_a_half = false /\
  Forall all_integral (corpus fraction_state) /\
  integer_value (truncate two_and_a_half) = Some 2 /\
  integer_value (truncate (SFopp two_and_a_half)) = Some (-2).
Proof.
  split; [vm_compute; reflexivity |].
  split; [eexists; vm_compute; reflexivity |].
  split; [reflexivity |].
  destruct (@round_mode_keeps_assignments_integral
              small_exprtk fraction_source 1 sample_cfg eq_refl ltac:(lia)
              fraction_source_contract)
    as (_ & _ & _ & _ & Hrun & _ & Htrunc & _).
  split; [| split].
  - exact (Hrun 1%nat 1%nat [Improved] fraction_state
             ltac:(vm_compute; reflexivity)).
  - exact (Htrunc two_and_a_half eq_refl eq_refl).
  - exact (Htrunc (SFopp two_and_a_half) eq_refl eq_refl).
Defined.

(** C7 fails as stated: the first expression is refused by the evaluator,
    whatever the assignment, yet behind a condition that never holds the
    program makes pass after pass without an error and without exiting, and
    it compiles the one condition again in every pass. *)
Lemma refused_expression_goes_unnoticed :
  (forall ns,
     @parser_compile small_exprtk (bindings 1 ns) (expr1 starved_cfg)
     = inl "ERR000 - Invalid expression"%string) /\
  @Fuzz small_exprtk sample_source 1 starved_cfg 3 1
    (@constructed sample_source 1)
  = Ok [ConditionFailed; ConditionFailed; ConditionFailed]
      (@Build_State sample_source 0%N (21, 9)%nat [[zero]] None
         [] ["0"; "0"; "0"]%string).
Proof. split; [reflexivity | vm_compute; reflexivity]. Qed.

(** The pass of the sample run on a refused first expression exits with
    status 1 after [mutate] returned, on the text it was handed. *)
Lemma compile_error_sample :
  1 = 1 /\
  exists ns s1 e err,
    @mutate sample_source 1 broken_cfg 1 (@constructed sample_source 1)
    = Ok ns s1 /\
    @parser_compile small_exprtk (bindings 1 ns) e = inl err /\
    last (compiled broken_state) = Some e /\
    In e (conditions broken_cfg ++ [expr1 broken_cfg; expr2 broken_cfg]) /\
    cout broken_state
    = cout (@constructed sample_source 1) ++ error_report err e /\
    corpus broken_state = corpus (@constructed sample_source 1) /\
    diff broken_state = diff (@constructed sample_source 1) /\
    iter broken_state = iter (@constructed sample_source 1).
Proof.
  exact (proj1 (proj2 (@compile_errors_surface_inside_the_loop
                         small_exprtk sample_source 1 broken_cfg))
           1%nat (@constructed sample_source 1) 1 broken_state
           ltac:(vm_compute; reflexivity)).
Defined.



(** C9 fails as stated: with a first expression that is NaN the first
    candidate is accepted with a difference of NaN, and NaN is not
    [>= 0]. *)
Lemma best_difference_can_be_nan :
  exists s',
    @Fuzz small_exprtk sample_source 1 nan_cfg 1 1
      (@constructed sample_source 1)
    = Ok [Improved] s' /\
    diff s' = Some nan /\ leb zero nan = false.
Proof.
  eexists. split; [vm_compute; reflexivity |].
  split; reflexivity.
Qed.

(** The best difference of that run is not below zero, being NaN. *)
Lemma best_difference_nan_sample :
  ltb nan zero = false /\ (leb zero nan = true \/ is_nan nan = true).
Proof.
  exact (proj2 (proj2 (@best_difference_is_not_negative
                         small_exprtk sample_source 1 nan_cfg))
           1%nat 1%nat [Improved]
           (match @Fuzz small_exprtk sample_source 1 nan_cfg 1 1
                    (@constructed sample_source 1) with
            | Ok _ s => s
            | _ => @constructed sample_source 1
            end)
           nan ltac:(vm_compute; reflexivity) ltac:(vm_compute; reflexivity)).
Defined.

(** [main] on [a == 0] with draws of [2.5] is still searching after two
    passes; it has accepted [a = 6] and then [a = 3], where the first
    candidate would be [a = 7.5] without round mode, and has printed two
    reports of integral assignments. *)
Lemma main_sample :
  @main small_exprtk fraction_source ["prog"; "a"; "0"]%string 2 1
  = Ok None main_state /\
  corpus main_state
  = [replicate 6 zero; of_Z 6 :: replicate 5 zero;
     of_Z 3 :: replicate 5 zero] /\
  @integral_search small_exprtk fraction_source main_NumNumbers
    (main_fuzzer ["prog"; "a"; "0"]%string) [] main_state.
Proof.
  split; [vm_compute; reflexivity |].
  split; [vm_compute; reflexivity |].
  destruct (proj2 main_always_runs_in_round_mode small_exprtk fraction_source
              fraction_source_contract ["prog"; "a"; "0"]%string 2%nat 1%nat
              ltac:(simpl; lia))
    as (_ & HOk & _).
  exact (proj1 (proj2 (HOk None main_state ltac:(vm_compute; reflexivity)))).
Defined.

(** * Further properties *)

(** ** An exact match *)

Section NonZero.

Variables prec emax : Z.
Hypothesis prec_pos : 0 < prec.

Lemma digits2_pos_lower p : 2 ^ (Z.pos (digits2_pos p) - 1) <= Z.pos p.
Proof.
  induction p as [p IH | p IH |]; simpl digits2_pos.
  - rewrite Pos2Z.inj_succ.
    replace (Z.succ (Z.pos (digits2_pos p)) - 1)
      with (Z.succ (Z.pos (digits2_pos p) - 1)) by lia.
    rewrite Z.pow_succ_r by lia. lia.
  - rewrite Pos2Z.inj_succ.
    replace (Z.succ (Z.pos (digits2_pos p)) - 1)
      with (Z.succ (Z.pos (digits2_pos p) - 1)) by lia.
    rewrite Z.pow_succ_r by lia. lia.
  - simpl. lia.
Qed.

Lemma digits2_pos_shift p d :
  Z.pos (digits2_pos (Pos.iter xO p d)) = Z.pos (digits2_pos p) + Z.pos d.
Proof.
  induction d as [| d IH] using Pos.peano_ind.
  - simpl. lia.
  - rewrite Pos.iter_succ. simpl digits2_pos. lia.
Qed.

Lemma shr_1_half mrs : 0 <= shr_m mrs -> shr_m (shr_1 mrs) = shr_m mrs / 2.
Proof.
  destruct mrs as [m r s]; simpl. intros Hm.
  rewrite <- Z.div2_div.
  destruct m as [| [p | p |] | p]; try reflexivity; lia.
Qed.

Lemma iter_shr_1_div n mrs :
  0 <= shr_m mrs ->
  shr_m (Nat.iter n shr_1 mrs) = shr_m mrs / 2 ^ Z.of_nat n.
Proof.
  intros Hm. induction n as [| n IH].
  - simpl. now rewrite Z.div_1_r.
  - rewrite Nat.iter_succ, shr_1_half by now apply iter_shr_1_nonneg.
    rewrite IH, Nat2Z.inj_succ, Z.pow_succ_r by lia.
    rewrite Z.div_div by (try apply Z.pow_pos_nonneg; lia).
    f_equal. lia.
Qed.

(** Shifting to the target exponent keeps a positive mantissa positive as
    long as the exponent is not below [emin]. *)
Lemma shr_fexp_positive m e l :
  0 < m -> emin prec emax <= e ->
  0 < shr_m (fst (shr_fexp prec emax m e l)) /\
  emin prec emax <= snd (shr_fexp prec emax m e l).
Proof.
  intros Hm He. unfold shr_fexp.
  assert (Hrec : shr_m (shr_record_of_loc m l) = m)
    by (destruct l as [| []]; reflexivity).
  set (n := fexp prec emax (Zdigits2 m + e) - e).
  rewrite shr_snd. split; [| lia].
  destruct n as [| p | p] eqn:Hn; simpl; try (rewrite Hrec; exact Hm).
  rewrite iter_pos_nat, iter_shr_1_div, Hrec, positive_nat_Z by lia.
  destruct m as [| q | q]; try lia.
  pose proof (digits2_pos_lower q) as Hlow.
  assert (Hp : Z.pos p <= Z.pos (digits2_pos q) - 1).
  { subst n. unfold fexp in Hn. simpl Zdigits2 in Hn. lia. }
  assert (Hle : 2 ^ Z.pos p <= 2 ^ (Z.pos (digits2_pos q) - 1))
    by (apply Z.pow_le_mono_r; lia).
  apply Z.div_str_pos. split; [apply Z.pow_pos_nonneg; lia | lia].
Qed.

Lemma round_nearest_even_positive m l : 0 < m -> 0 < round_nearest_even m l.
Proof.
  intros Hm; destruct l as [| []]; simpl; try lia.
  destruct (Z.even m); lia.
Qed.

Lemma binary_round_aux_not_zero s m e l :
  0 < m -> emin prec emax <= e ->
  not_zero (binary_round_aux prec emax s m e l).
Proof.
  intros Hm He. unfold binary_round_aux.
  destruct (shr_fexp_positive m e l Hm He) as [H1 E1].
  destruct (shr_fexp prec emax m e l) as [mrs1 e1]; simpl in H1, E1.
  set (m2 := round_nearest_even (shr_m mrs1) (loc_of_shr_record mrs1)).
  assert (Hm2 : 0 < m2) by now apply round_nearest_even_positive.
  destruct (shr_fexp_positive m2 e1 loc_Exact Hm2 E1) as [H2 _].
  destruct (shr_fexp prec emax m2 e1 loc_Exact) as [mrs2 e2]; simpl in H2.
  destruct (shr_m mrs2); try lia.
  now destruct (e2 <=? emax - prec).
Qed.

Lemma binary_round_not_zero s m e :
  emin prec emax <= e -> not_zero (binary_round prec emax s m e).
Proof.
  intros He. unfold binary_round.
  assert (Ha : emin prec emax
               <= snd (shl_align m e (fexp prec emax (Z.pos (digits2_pos m) + e)))).
  { unfold shl_align, fexp.
    destruct (Z.max _ _ - e) eqn:Hd; simpl; lia. }
  destruct (shl_align m e _) as [mz ez]; simpl in Ha.
  apply binary_round_aux_not_zero; [lia | assumption].
Qed.

Lemma shl_align_value m e ez :
  ez <= e -> Z.pos (fst (shl_align m e ez)) = Z.pos m * 2 ^ (e - ez).
Proof.
  intros Hle. unfold shl_align.
  destruct (ez - e) as [| d | d] eqn:Hd; simpl; try lia.
  - replace (e - ez) with 0 by lia. simpl. lia.
  - change (Pos.iter xO m d) with (shift_pos d m).
    rewrite shift_pos_correct. change (Z.pow_pos 2 d) with (2 ^ Z.pos d).
    replace (e - ez) with (Z.pos d) by lia. lia.
Qed.

Lemma shl_align_digits m e ez :
  ez <= e ->
  Z.pos (digits2_pos (fst (shl_align m e ez)))
  = Z.pos (digits2_pos m) + (e - ez).
Proof.
  intros Hle. unfold shl_align.
  destruct (ez - e) as [| d | d] eqn:Hd; simpl fst; try lia.
  rewrite digits2_pos_shift. lia.
Qed.

Lemma canonical_emin m e :
  canonical_mantissa prec emax m e = true -> emin prec emax <= e.
Proof. unfold canonical_mantissa, fexp. intros H. apply Z.eqb_eq in H. lia. Qed.

(** Two canonical mantissas that align to the same integer are the same
    mantissa at the same exponent. *)
Lemma canonical_unique m1 e1 m2 e2 :
  canonical_mantissa prec emax m1 e1 = true ->
  canonical_mantissa prec emax m2 e2 = true ->
  fst (shl_align m1 e1 (Z.min e1 e2)) = fst (shl_align m2 e2 (Z.min e1 e2)) ->
  m1 = m2 /\ e1 = e2.
Proof.
  intros C1 C2 H.
  pose proof (shl_align_digits m1 e1 (Z.min e1 e2) ltac:(lia)) as D1.
  pose proof (shl_align_digits m2 e2 (Z.min e1 e2) ltac:(lia)) as D2.
  rewrite H in D1.
  unfold canonical_mantissa in C1, C2.
  apply Z.eqb_eq in C1, C2.
  assert (He : e1 = e2).
  { rewrite <- C1, <- C2. f_equal. lia. }
  split; [| assumption]. subst e2.
  pose proof (shl_align_value m1 e1 (Z.min e1 e1) ltac:(lia)) as V1.
  pose proof (shl_align_value m2 e1 (Z.min e1 e1) ltac:(lia)) as V2.
  rewrite H in V1. rewrite Z.min_id, Z.sub_diag in V1, V2. simpl in V1, V2.
  lia.
Qed.

End NonZero.

Lemma not_zero_is_zero x : not_zero x -> is_zero x = false.
Proof. destruct x as [s | s | | s m e]; try easy; now destruct s. Qed.

Lemma eqb_finite s m e s' m' e' :
  eqb (S754_finite s m e) (S754_finite s' m' e') = true <->
  s = s' /\ m = m' /\ e = e'.
Proof.
  unfold eqb, SFeqb; simpl. split.
  - destruct s, s'; try discriminate;
      destruct (Z.compare_spec e e'); try discriminate;
      change (Pos.compare_cont Eq m m') with (Pos.compare m m');
      destruct (Pos.compare_spec m m'); try discriminate; auto.
  - intros (-> & -> & ->).
    destruct s'; rewrite Z.compare_refl, Pos.compare_cont_refl; reflexivity.
Qed.

(** On well-formed doubles a difference is zero exactly when both operands
    are finite and compare equal. *)
Lemma sub_zero_iff x y :
  valid x = true -> valid y = true ->
  (is_zero (sub x y) = true <->
   is_finite x = true /\ is_finite y = true /\ eqb x y = true).
Proof.
  destruct x as [s | s | | s m e], y as [s' | s' | | s' m' e'];
    intros Vx Vy;
    try (split; [discriminate | intros (H1 & H2 & H3); discriminate]).
  1-8: destruct s, s'; simpl;
    (split; [intros H | intros (H1 & H2 & H3)]); try discriminate; auto.
  unfold valid in Vx, Vy. simpl in Vx, Vy. unfold bounded in Vx, Vy.
  apply andb_true_iff in Vx as [Cx _]. apply andb_true_iff in Vy as [Cy _].
  pose proof (canonical_emin _ _ _ _ Cx) as Ex.
  pose proof (canonical_emin _ _ _ _ Cy) as Ey.
  unfold sub, SFsub. cbv zeta.
  set (a := fst (shl_align m e (Z.min e e'))).
  set (b := fst (shl_align m' e' (Z.min e e'))).
  destruct (cond_Zopp s (Z.pos a) - cond_Zopp s' (Z.pos b)) as [| p | p] eqn:HM;
    simpl binary_normalize.
  + split; [intros _ | reflexivity].
    split; [reflexivity |]. split; [reflexivity |].
    assert (Hs : s = s' /\ a = b).
    { destruct s, s'; simpl in HM; try lia; split; try reflexivity; lia. }
    destruct Hs as [-> Hab].
    destruct (canonical_unique prec emax m e m' e' Cx Cy Hab) as [-> ->].
    now apply eqb_finite.
  + rewrite not_zero_is_zero by (apply binary_round_not_zero; [easy | lia]).
    split; [discriminate | intros (_ & _ & H)].
    apply eqb_finite in H as (-> & -> & ->). subst a b.
    destruct s'; simpl in HM; lia.
  + rewrite not_zero_is_zero by (apply binary_round_not_zero; [easy | lia]).
    split; [discriminate | intros (_ & _ & H)].
    apply eqb_finite in H as (-> & -> & ->). subst a b.
    destruct s'; simpl in HM; lia.
Qed.

Lemma is_zero_abs x : is_zero (abs x) = is_zero x.
Proof. destruct x as [s | s | | s m e]; try reflexivity; now destruct s. Qed.

Lemma abs_difference_exact res1 res2 :
  valid res1 = true -> valid res2 = true ->
  (eqb (abs_difference res1 res2) zero = true <->
   is_finite res1 = true /\ is_finite res2 = true /\ eqb res1 res2 = true).
Proof.
  intros V1 V2. rewrite abs_difference_gap. unfold gap.
  change (eqb (abs (sub res1 res2)) zero) with (is_zero (abs (sub res1 res2))).
  rewrite is_zero_abs. now apply sub_zero_iff.
Qed.

(** The test [*diff == 0.0f] of [Fuzz] succeeds exactly when the two results
    are finite and compare equal with [==]; two infinite results of the same
    sign compare equal but are no match, their difference being NaN. *)
Theorem exact_match_means_equal_results :
  (forall res1 res2,
     valid res1 = true -> valid res2 = true ->
     (eqb (abs_difference res1 res2) zero = true <->
      is_finite res1 = true /\ is_finite res2 = true /\
      eqb res1 res2 = true)) /\
  (forall s,
     eqb (S754_infinity s) (S754_infinity s) = true /\
     eqb (abs_difference (S754_infinity s) (S754_infinity s)) zero = false).
Proof.
  split; [apply abs_difference_exact |].
  intros s. now destruct s.
Qed.

(** ** Names and text *)

Lemma toString_code i :
  (i < 159)%nat ->
  toString i = String (ascii_of_nat (97 + i)) EmptyString /\
  nat_of_ascii (ascii_of_nat (97 + i)) = (97 + i)%nat.
Proof. intros Hi. split; [reflexivity |]. apply nat_ascii_embedding. lia. Qed.

Lemma toString_inj i j :
  (i < 159)%nat -> (j < 159)%nat -> toString i = toString j -> i = j.
Proof.
  intros Hi Hj H.
  destruct (toString_code i Hi) as [_ Ci], (toString_code j Hj) as [_ Cj].
  assert (Ha : ascii_of_nat (97 + i) = ascii_of_nat (97 + j))
    by (unfold toString in H; congruence).
  enough (97 + i = 97 + j)%nat by lia.
  rewrite <- Ci, <- Cj. now rewrite Ha.
Qed.

(** Within the [static_assert], the variables are named by the letters [a]
    to [z], two slots never share a name, and the symbol table of [calc]
    binds the name of each slot to the value of that slot, in order. *)
Theorem variables_have_distinct_letters :
  forall NumNumbers ns,
    (NumNumbers <= 26)%nat ->
    (forall i, (i < NumNumbers)%nat ->
       exists c, toString i = String c EmptyString /\
                 nat_of_ascii c = (97 + i)%nat /\
                 (97 <= nat_of_ascii c <= 122)%nat) /\
    length (bindings NumNumbers ns) = NumNumbers /\
    NoDup (map fst (bindings NumNumbers ns)) /\
    (forall i, (i < NumNumbers)%nat ->
       bindings NumNumbers ns !! i = Some (toString i, slot ns i)).
Proof.
  intros N ns HN. split; [| split; [| split]].
  - intros i Hi. destruct (toString_code i ltac:(lia)) as [Hs Hc].
    eexists. split; [exact Hs |]. rewrite Hc. lia.
  - unfold bindings. now rewrite length_map, length_seq.
  - unfold bindings. rewrite map_map. simpl.
    change (map (fun x => toString x) (seq 0 N)) with (toString <$> seq 0 N).
    apply NoDup_fmap_2_strong; [| apply NoDup_seq].
    intros i j Hi Hj. apply elem_of_seq in Hi, Hj.
    apply toString_inj; lia.
  - intros i Hi. unfold bindings, symbol_table.
    change (map (fun i => (toString i, slot ns i)) (seq 0 N))
      with ((fun i => (toString i, slot ns i)) <$> seq 0 N).
    rewrite list_lookup_fmap, lookup_seq_lt by assumption. reflexivity.
Qed.

Section Text.

Variable NumNumbers : nat.
Variable cfg : Config.

Lemma flat_map_ext_seq {A} (f g : nat -> list A) n :
  (forall i, (i < n)%nat -> f i = g i) ->
  flat_map f (seq 0 n) = flat_map g (seq 0 n).
Proof.
  intros H. induction n as [| n IH]; [reflexivity |].
  rewrite seq_S, !flat_map_app. simpl. rewrite !app_nil_r.
  rewrite IH by (intros i Hi; apply H; lia).
  now rewrite H by lia.
Qed.

Lemma map_slot_seq (ns : NumStruct) :
  map (slot ns) (seq 0 (length ns)) = ns.
Proof.
  unfold slot. induction ns as [| x ns IH]; [reflexivity |].
  simpl. f_equal. rewrite <- seq_shift, map_map. exact IH.
Qed.

Lemma doubles_of_flat_map {A} (f : A -> list item) l :
  doubles_of (flat_map f l) = flat_map (fun x => doubles_of (f x)) l.
Proof.
  unfold doubles_of. induction l as [| x l IH]; [reflexivity |].
  simpl. now rewrite flat_map_app, IH.
Qed.

Lemma flat_map_singleton {A B} (f : A -> B) l :
  flat_map (fun x => [f x]) l = map f l.
Proof. induction l as [| x l IH]; [reflexivity |]. simpl. now f_equal. Qed.

Lemma toString_ns_entries ns separator :
  (0 < NumNumbers)%nat ->
  toString_ns NumNumbers ns separator ++ [Str separator]
  = flat_map (entry ns separator) (seq 0 NumNumbers).
Proof.
  intros HN. unfold toString_ns.
  destruct NumNumbers as [| n]; [lia |]. clear HN.
  replace (S n - 1)%nat with n by lia.
  rewrite seq_S, !flat_map_app. simpl. rewrite Nat.eqb_refl, !app_nil_r.
  rewrite <- app_assoc. simpl. f_equal.
  apply flat_map_ext_seq. intros i Hi.
  apply Nat.lt_neq, Nat.eqb_neq in Hi. now rewrite Hi.
Qed.

(** [toString (ns, separator)] writes one [name=value] entry per slot, in
    order, with the separator between two entries and none after the last;
    the values it writes are the slots of [ns]. *)
Theorem toString_separates_the_entries :
  forall ns separator,
    (0 < NumNumbers)%nat ->
    toString_ns NumNumbers ns separator ++ [Str separator]
    = flat_map (entry ns separator) (seq 0 NumNumbers) /\
    (length ns = NumNumbers ->
     doubles_of (toString_ns NumNumbers ns separator) = ns) /\
    length (toString_ns NumNumbers ns separator)
    = (4 * NumNumbers - 1)%nat.
Proof.
  intros ns sep HN.
  split; [now apply toString_ns_entries |].
  unfold toString_ns.
  destruct NumNumbers as [| n]; [lia |]. clear HN.
  replace (S n - 1)%nat with n by lia.
  split.
  - intros Hlen. rewrite doubles_of_flat_map.
    rewrite (flat_map_ext_seq _ (fun i => [slot ns i])).
    + rewrite flat_map_singleton, <- Hlen. apply map_slot_seq.
    + intros i _. unfold doubles_of. simpl. now destruct (i =? n)%nat.
  - rewrite seq_S, flat_map_app, length_app. simpl.
    rewrite Nat.eqb_refl. simpl.
    rewrite (flat_map_ext_seq _ (entry ns sep)).
    + assert (H : forall k, length (flat_map (entry ns sep) (seq 0 k))
                            = (4 * k)%nat).
      { induction k as [| k IH]; [reflexivity |].
        rewrite seq_S, flat_map_app, length_app, IH. simpl. lia. }
      rewrite H. lia.
    + intros i Hi. apply Nat.lt_neq, Nat.eqb_neq in Hi. now rewrite Hi.
Qed.

(** [toScript] writes one line [name=value] per slot and then the line
    [expr1 == expr2]; every line ends with a newline. *)
Theorem toScript_is_one_line_per_variable :
  forall ns,
    (0 < NumNumbers)%nat ->
    toScript NumNumbers cfg ns
    = flat_map (entry ns (String (ascii_of_nat 10) EmptyString))
        (seq 0 NumNumbers)
      ++ [Str (expr1 cfg); Str " == "; Str (expr2 cfg);
          Str (String (ascii_of_nat 10) EmptyString)].
Proof.
  intros ns HN. unfold toScript.
  rewrite <- (toString_ns_entries ns _ HN).
  now rewrite <- !app_assoc.
Qed.

End Text.

(** ** Sampling, shape and counters *)

Section Further.

Context `{ET : ExprTk} `{RS : RandomSource}.
Variable NumNumbers : nat.
Variable cfg : Config.

(** [getStatic] reads the corpus at the draw reduced modulo the size of the
    corpus, which is always a member; it moves the engine and nothing else.
    On an empty corpus the reduction is a division by zero. *)
Theorem getStatic_reads_a_member :
  forall s,
    (corpus s = [] -> getStatic s = Undefined) /\
    (corpus s <> [] ->
     exists ns,
       (N.to_nat (fst (unifSizeT (prng s)) mod N.of_nat (length (corpus s)))
        < length (corpus s))%nat /\
       corpus s
       !! N.to_nat (fst (unifSizeT (prng s)) mod N.of_nat (length (corpus s)))
       = Some ns /\
       getStatic s = Ok ns (upd_prng (snd (unifSizeT (prng s))) s)).
Proof.
  intros s. unfold getStatic, bind, get. rewrite draw_size_eq. simpl.
  split.
  - intros ->. reflexivity.
  - intros Hne. destruct (corpus s) as [| c0 cs] eqn:Hc; [contradiction |].
    set (i := N.to_nat (_ mod _)).
    assert (Hi : (i < length (c0 :: cs))%nat).
    { subst i.
      pose proof (N.mod_lt (fst (unifSizeT (prng s)))
                    (N.of_nat (length (c0 :: cs)))) as Hlt.
      simpl length in *. lia. }
    destruct (lookup_lt_is_Some_2 _ _ Hi) as [ns Hns].
    exists ns. rewrite Hns. auto.
Qed.

Lemma mutate_base_length fuel s ns s' :
  (0 < NumNumbers)%nat ->
  mutate NumNumbers cfg fuel s = Ok ns s' ->
  exists base, In base (corpus s) /\ length ns = length base.
Proof.
  intros HN H. unfold mutate in H.
  apply bind_Ok in H as (base & s1 & H1 & H2).
  apply getStatic_Ok in H1 as [Hin _].
  exists base. split; [assumption |]. clear Hin s.
  revert H2. generalize 3%nat as j. intros j; revert base s1.
  induction j as [| j IH]; intros base s1 H; simpl in H.
  - now injection H as <- <-.
  - apply bind_Ok in H as (ns1 & s2 & H1 & H2).
    apply mutate_step_Ok in H1 as (i & mu & d & _ & _ & _ & -> & _);
      [| assumption].
    apply IH in H2. now rewrite H2, perturb_length.
Qed.

(** Every assignment has [NumNumbers] slots: a pass of [mutate] changes the
    slot it chose and no other and keeps the number of slots, [mutate]
    leaves the corpus and everything but the engine as it was, and in every
    run of the constructed fuzzer each member of the corpus has
    [NumNumbers] slots. *)
Theorem assignments_keep_their_slots :
  (0 < NumNumbers)%nat ->
  (forall whichNum mu d ns,
     length (perturb cfg whichNum mu d ns) = length ns /\
     forall j, j <> whichNum -> perturb cfg whichNum mu d ns !! j = ns !! j) /\
  (forall fuel s ns s',
     mutate NumNumbers cfg fuel s = Ok ns s' ->
     engine_moved s s' /\
     exists base, In base (corpus s) /\ length ns = length base) /\
  (forall cycles fuel vs s',
     Fuzz NumNumbers cfg cycles fuel (constructed NumNumbers) = Ok vs s' ->
     Forall (fun ns => length ns = NumNumbers) (corpus s')) /\
  (forall cycles fuel c s',
     Fuzz NumNumbers cfg cycles fuel (constructed NumNumbers) = Exit c s' ->
     Forall (fun ns => length ns = NumNumbers) (corpus s')).
Proof.
  intros HN.
  assert (Hinv : forall cycles fuel,
             (forall vs s',
                Fuzz_loop NumNumbers cfg cycles fuel
                  (upd_diff None (constructed NumNumbers)) = Ok vs s' ->
                Forall (fun ns => length ns = NumNumbers) (corpus s')) /\
             (forall c s',
                Fuzz_loop NumNumbers cfg cycles fuel
                  (upd_diff None (constructed NumNumbers)) = Exit c s' ->
                Forall (fun ns => length ns = NumNumbers) (corpus s'))).
  { intros cycles fuel.
    apply (Fuzz_loop_invariant NumNumbers cfg
             (fun s => Forall (fun ns => length ns = NumNumbers) (corpus s))).
    - intros s0 v s1 H0 Hb.
      apply Fuzz_body_corpus in Hb as (ns & s2 & Hm & ->).
      apply Forall_app. split; [assumption |].
      destruct (accepted v); [| constructor].
      constructor; [| constructor].
      apply mutate_base_length in Hm as (base & Hin & ->); [| assumption].
      rewrite Forall_forall in H0. apply H0. now apply list_elem_of_In.
    - intros s0 c s1 H0 Hb. apply Fuzz_body_Exit_corpus in Hb. congruence.
    - constructor; [apply length_replicate | constructor]. }
  split; [| split; [| split]].
  - intros i mu d ns. split; [apply perturb_length |].
    intros j Hj. now apply perturb_other_slots.
  - intros fuel s ns s' H. split; [eapply mutate_engine; eassumption |].
    eapply mutate_base_length; eassumption.
  - intros cycles fuel vs s' H. rewrite Fuzz_eq in H.
    eapply (proj1 (Hinv cycles fuel)); eassumption.
  - intros cycles fuel c s' H. rewrite Fuzz_eq in H.
    eapply (proj2 (Hinv cycles fuel)); eassumption.
Qed.

Lemma Fuzz_body_iter fuel s v s' :
  Fuzz_body NumNumbers cfg fuel s = Ok v s' ->
  iter s' = match v with
            | ConditionFailed => iter s
            | _ => ((iter s + 1) mod size_t_modulus)%N
            end.
Proof.
  intros H. apply Fuzz_body_Ok in H as (ns & s1 & Hm & H).
  pose proof (mutate_engine _ _ _ _ _ _ Hm) as [g ->].
  destruct v.
  - now destruct H as [_ ->].
  - now destruct H as (_ & r1 & r2 & _ & _ & _ & ->).
  - now destruct H as (_ & r1 & r2 & _ & _ & _ & _ & ->).
  - now destruct H as (_ & r1 & r2 & _ & _ & _ & _ & ->).
Qed.

(** [iter] counts, modulo 2^64, the passes that called [numStructToDiff]:
    the candidates whose conditions all held.  Every accepted candidate is
    among them. *)
Theorem iter_counts_the_evaluations :
  forall cycles fuel vs s',
    Fuzz NumNumbers cfg cycles fuel (constructed NumNumbers) = Ok vs s' ->
    iter s' = (N.of_nat (evaluations vs) mod size_t_modulus)%N /\
    (acceptances vs <= evaluations vs)%nat.
Proof.
  intros cycles fuel vs s' H. rewrite Fuzz_eq in H. split.
  - assert (Hgen : forall cycles s vs s',
               Fuzz_loop NumNumbers cfg cycles fuel s = Ok vs s' ->
               (iter s < size_t_modulus)%N ->
               iter s' = ((iter s + N.of_nat (evaluations vs))
                            mod size_t_modulus)%N).
    { apply (Fuzz_loop_run NumNumbers cfg
               (fun s vs s' =>
                  (iter s < size_t_modulus)%N ->
                  iter s' = ((iter s + N.of_nat (evaluations vs))
                               mod size_t_modulus)%N)).
      - intros s Hs. unfold evaluations. simpl.
        rewrite N.add_0_r. symmetry. now apply N.mod_small.
      - intros s v s1 vs0 s2 Hb _ IH Hs.
        apply Fuzz_body_iter in Hb.
        assert (Hm : (0 < size_t_modulus)%N) by reflexivity.
        destruct v; unfold evaluations in *; simpl;
          try (rewrite IH, Hb;
                 [| rewrite Hb; apply N.mod_lt; discriminate];
               rewrite N.Div0.add_mod_idemp_l; f_equal; lia).
        rewrite IH; rewrite Hb; [reflexivity | assumption]. }
    apply Hgen in H; [| reflexivity]. exact H.
  - clear H. unfold acceptances, evaluations.
    induction vs as [| v vs IH]; [reflexivity |].
    destruct v; simpl; lia.
Qed.

Lemma Fuzz_body_cout fuel s v s' :
  Fuzz_body NumNumbers cfg fuel s = Ok v s' ->
  exists out,
    cout s' = cout s ++ out /\
    if accepted v then acceptance_report NumNumbers cfg out else out = [].
Proof.
  intros H. apply Fuzz_body_Ok in H as (ns & s1 & Hm & H).
  pose proof (mutate_engine _ _ _ _ _ _ Hm) as [g ->].
  destruct v.
  - destruct H as [_ ->]. exists []. now rewrite app_nil_r.
  - destruct H as (_ & r1 & r2 & _ & _ & _ & ->).
    exists []. now rewrite app_nil_r.
  - destruct H as (Hp & r1 & r2 & H1 & H2 & _ & Hz & ->).
    eexists. split; [reflexivity |].
    eexists _, _, ns, r1, r2. rewrite Hz, app_nil_r. auto.
  - destruct H as (Hp & r1 & r2 & H1 & H2 & _ & Hz & ->).
    eexists. split; [simpl; rewrite <- app_assoc; reflexivity |].
    eexists _, _, ns, r1, r2. rewrite Hz. auto.
Qed.

(** The output of the loop is one report per accepted candidate and nothing
    else: each report gives a candidate that passes the conditions, its two
    results and their difference, followed by the solution report exactly
    when that difference is zero.  A run that accepts nothing prints
    nothing. *)
Theorem output_is_one_report_per_acceptance :
  forall cycles fuel s vs s',
    Fuzz_loop NumNumbers cfg cycles fuel s = Ok vs s' ->
    exists reports,
      cout s' = cout s ++ concat reports /\
      length reports = acceptances vs /\
      Forall (acceptance_report NumNumbers cfg) reports /\
      (acceptances vs = O -> cout s' = cout s).
Proof.
  intros cycles fuel.
  assert (Hgen : forall cycles s vs s',
             Fuzz_loop NumNumbers cfg cycles fuel s = Ok vs s' ->
             exists reports,
               cout s' = cout s ++ concat reports /\
               length reports = acceptances vs /\
               Forall (acceptance_report NumNumbers cfg) reports).
  { apply (Fuzz_loop_run NumNumbers cfg
             (fun s vs s' =>
                exists reports,
                  cout s' = cout s ++ concat reports /\
                  length reports = acceptances vs /\
                  Forall (acceptance_report NumNumbers cfg) reports)).
    - intros s. exists []. simpl. rewrite app_nil_r. auto.
    - intros s v s1 vs s2 Hb _ (reports & Hc & Hl & Hf).
      apply Fuzz_body_cout in Hb as (out & Ho & Hout).
      unfold acceptances in *. simpl. destruct (accepted v).
      + exists (out :: reports). simpl.
        rewrite Hc, Ho, <- app_assoc, Hl. auto.
      + subst out. rewrite app_nil_r in Ho.
        exists reports. rewrite Hc, Ho. auto. }
  intros s vs s' H. destruct (Hgen cycles s vs s' H) as (reports & Hc & Hl & Hf).
  exists reports. repeat (split; [assumption |]).
  intros H0. rewrite H0 in Hl. destruct reports; [| discriminate].
  simpl in Hc. now rewrite app_nil_r in Hc.
Qed.

(** ** Search *)


Lemma strictly_decreasing_snoc ds d :
  strictly_decreasing ds ->
  improves (last ds) d = true ->
  strictly_decreasing (ds ++ [d]).
Proof.
  intros Hs Hi i j x y Hij Hx Hy.
  assert (Hj : (j < length (ds ++ [d]))%nat) by (eapply lookup_lt_Some; eauto).
  rewrite length_app in Hj. simpl in Hj.
  assert (Hix : ds !! i = Some x).
  { rewrite lookup_app_l in Hx by lia. exact Hx. }
  destruct (decide (j < length ds)%nat) as [Hlt | Hge].
  - rewrite lookup_app_l in Hy by assumption. exact (Hs i j x y Hij Hix Hy).
  - assert (j = length ds) by lia. subst j.
    rewrite list_lookup_middle in Hy by reflexivity.
    injection Hy as <-.
    apply improves_iff in Hi as [Hn | (b & Hb & Hlt)].
    + apply last_None in Hn. subst ds. discriminate.
    + destruct (decide (i = pred (length ds))) as [-> | Hne].
      * rewrite last_lookup in Hb. congruence.
      * rewrite last_lookup in Hb.
        eapply ltb_trans; [exact Hlt |].
        apply (Hs i (pred (length ds)) x b); [lia | assumption | assumption].
Qed.

Lemma Fuzz_body_improvement fuel s v s' :
  Fuzz_body NumNumbers cfg fuel s = Ok v s' ->
  if accepted v
  then exists ns d,
         corpus s' = corpus s ++ [ns] /\ diff s' = Some d /\
         improvement NumNumbers cfg ns d /\ improves (diff s) d = true
  else corpus s' = corpus s /\ diff s' = diff s.
Proof.
  intros H. apply Fuzz_body_Ok in H as (ns & s1 & Hm & H).
  pose proof (mutate_engine _ _ _ _ _ _ Hm) as [g ->].
  unfold improvement, difference_at.
  destruct v; simpl.
  - now destruct H as [_ ->].
  - now destruct H as (_ & r1 & r2 & _ & _ & _ & ->).
  - destruct H as (Hp & r1 & r2 & H1 & H2 & Hi & _ & ->).
    exists ns, (abs_difference r1 r2). rewrite H1, H2. auto.
  - destruct H as (Hp & r1 & r2 & H1 & H2 & Hi & _ & ->).
    exists ns, (abs_difference r1 r2). rewrite H1, H2. auto.
Qed.

(** The corpus is the record of the improvements: at every point of a run of
    the constructed fuzzer it is the zero seed followed by candidates that
    each pass the conditions, listed with differences that strictly
    decrease, and the best difference is the difference of the last one
    (none while only the seed is there). *)
Theorem corpus_records_the_improvements :
  forall cycles fuel,
    (forall vs s',
       Fuzz NumNumbers cfg cycles fuel (constructed NumNumbers) = Ok vs s' ->
       recorded NumNumbers cfg s') /\
    (forall c s',
       Fuzz NumNumbers cfg cycles fuel (constructed NumNumbers) = Exit c s' ->
       recorded NumNumbers cfg s').
Proof.
  intros cycles fuel. rewrite Fuzz_eq.
  apply (Fuzz_loop_invariant NumNumbers cfg (recorded NumNumbers cfg)).
  - intros s v s' (members & ds & Hc & Hf & Hs & Hd) Hb.
    apply Fuzz_body_improvement in Hb. destruct (accepted v).
    + destruct Hb as (ns & d & Hc' & Hd' & Himp & Hi).
      exists (members ++ [ns]), (ds ++ [d]).
      rewrite Hc', Hc, Hd', last_snoc. split; [reflexivity |].
      split; [apply Forall2_app; [assumption | now constructor] |].
      split; [| reflexivity].
      apply strictly_decreasing_snoc; [assumption | now rewrite <- Hd].
    + destruct Hb as [Hc' Hd']. exists members, ds.
      rewrite Hc', Hd'. auto.
  - intros s c s' (members & ds & Hc & Hf & Hs & Hd) Hb.
    apply Fuzz_body_Exit in Hb
      as (_ & ns & s1 & e & err & _ & _ & _ & _ & _ & Hc' & Hd' & _).
    exists members, ds. rewrite Hc', Hd'. auto.
  - exists [], []. simpl. repeat split; [constructor |].
    intros i j d d' _ Hx. discriminate.
Qed.

Lemma Fuzz_loop_solved cycles fuel s vs s' :
  Fuzz_loop NumNumbers cfg cycles fuel s = Ok vs s' ->
  last vs = Some Solved ->
  exists ns res1 res2 out,
    last (corpus s') = Some ns /\
    passes NumNumbers (conditions cfg) ns = true /\
    value_at NumNumbers ns (expr1 cfg) = Some res1 /\
    value_at NumNumbers ns (expr2 cfg) = Some res2 /\
    diff s' = Some (abs_difference res1 res2) /\
    eqb (abs_difference res1 res2) zero = true /\
    cout s' = out ++ solution_report NumNumbers cfg ns.
Proof.
  revert cycles s vs s'.
  apply (Fuzz_loop_run NumNumbers cfg
           (fun s vs s' =>
              last vs = Some Solved ->
              exists ns res1 res2 out,
                last (corpus s') = Some ns /\
                passes NumNumbers (conditions cfg) ns = true /\
                value_at NumNumbers ns (expr1 cfg) = Some res1 /\
                value_at NumNumbers ns (expr2 cfg) = Some res2 /\
                diff s' = Some (abs_difference res1 res2) /\
                eqb (abs_difference res1 res2) zero = true /\
                cout s' = out ++ solution_report NumNumbers cfg ns)).
  - intros s H. discriminate.
  - intros s v s1 vs s2 Hb Hsol IH Hl.
    assert (Hv : v = Solved \/ v <> Solved)
      by (destruct v; auto; right; discriminate).
    destruct Hv as [-> | Hv].
    + destruct (Hsol eq_refl) as [-> ->].
      apply Fuzz_body_Ok in Hb as (ns & s0 & _ & Hp & r1 & r2 & H1 & H2 & _ & Hz & ->).
      exists ns, r1, r2. eexists. simpl. rewrite last_snoc. auto 10.
    + apply IH. destruct vs as [| v' vs]; [| exact Hl].
      simpl in Hl. congruence.
Qed.

(** What [Fuzz] returns is a solution: when the loop is left by [return], the
    last member of the corpus passes the conditions, both expressions
    evaluate at it, the best difference is the absolute difference of the
    two results and compares equal to zero, so that two well-formed results
    are finite and compare equal, and the output ends with the solution
    report of that member. *)
Theorem a_returned_assignment_is_a_solution :
  forall cycles fuel s vs s',
    Fuzz_loop NumNumbers cfg cycles fuel s = Ok vs s' ->
    last vs = Some Solved ->
    exists ns res1 res2 out,
      last (corpus s') = Some ns /\
      passes NumNumbers (conditions cfg) ns = true /\
      value_at NumNumbers ns (expr1 cfg) = Some res1 /\
      value_at NumNumbers ns (expr2 cfg) = Some res2 /\
      diff s' = Some (abs_difference res1 res2) /\
      eqb (abs_difference res1 res2) zero = true /\
      cout s' = out ++ solution_report NumNumbers cfg ns /\
      (valid res1 = true -> valid res2 = true ->
       is_finite res1 = true /\ is_finite res2 = true /\
       eqb res1 res2 = true).
Proof.
  intros cycles fuel s vs s' H Hl.
  destruct (Fuzz_loop_solved _ _ _ _ _ H Hl)
    as (ns & r1 & r2 & out & H1 & H2 & H3 & H4 & H5 & H6 & H7).
  exists ns, r1, r2, out. repeat (split; [assumption |]).
  intros V1 V2. now apply abs_difference_exact.
Qed.

Lemma ltb_nan_r x d : is_nan d = true -> ltb x d = false.
Proof. destruct d; try discriminate. intros _. now destruct x. Qed.

Lemma ltb_nan_l x d : is_nan d = true -> ltb d x = false.
Proof. destruct d; try discriminate. reflexivity. Qed.

(** [Fuzz] forgets the best difference before it starts, so the first
    candidate that reaches [numStructToDiff] is appended to the corpus
    whatever its difference: no pass is rejected for its difference before
    one was accepted. *)
Theorem first_evaluated_candidate_is_accepted :
  forall cycles fuel s vs s',
    Fuzz NumNumbers cfg cycles fuel s = Ok vs s' ->
    forall k v,
      vs !! k = Some v ->
      (forall j, (j < k)%nat -> vs !! j = Some ConditionFailed) ->
      v <> NotBetter.
Proof.
  intros cycles fuel s vs s' H. rewrite Fuzz_eq in H.
  assert (Hd : diff (upd_diff None s) = None) by reflexivity.
  revert H Hd. generalize (upd_diff None s). clear s.
  intros s H. revert cycles s vs s' H.
  apply (Fuzz_loop_run NumNumbers cfg
           (fun s vs s' =>
              diff s = None ->
              forall k v,
                vs !! k = Some v ->
                (forall j, (j < k)%nat -> vs !! j = Some ConditionFailed) ->
                v <> NotBetter)).
  - intros s _ k v Hk. discriminate.
  - intros s v s1 vs s2 Hb _ IH Hd [| k] w Hk Hj.
    + injection Hk as <-. intros ->.
      apply Fuzz_body_Ok in Hb as (ns & s0 & _ & _ & r1 & r2 & _ & _ & Hi & _).
      rewrite Hd in Hi. discriminate.
    + pose proof (Hj O ltac:(lia)) as H0. injection H0 as ->.
      apply Fuzz_body_diff in Hb. simpl in Hb.
      apply (IH ltac:(congruence) k w Hk).
      intros j Hlt. apply (Hj (S j)). lia.
Qed.

(** NaN is below nothing and nothing is below NaN.  A candidate whose
    difference is NaN is accepted only while there is no best difference,
    and once the best difference is NaN no candidate is accepted any more:
    the loop never returns, and the corpus, the best difference and the
    output stay as they are. *)
Theorem a_nan_difference_is_accepted_first_or_never :
  (forall fuel s v s' d,
     Fuzz_body NumNumbers cfg fuel s = Ok v s' ->
     accepted v = true -> diff s' = Some d -> is_nan d = true ->
     diff s = None /\ v = Improved) /\
  (forall cycles fuel s d vs s',
     diff s = Some d -> is_nan d = true ->
     Fuzz_loop NumNumbers cfg cycles fuel s = Ok vs s' ->
     acceptances vs = O /\ length vs = cycles /\
     corpus s' = corpus s /\ diff s' = diff s /\ cout s' = cout s).
Proof.
  split.
  - intros fuel s v s' d Hb Ha Hd Hn.
    apply Fuzz_body_Ok in Hb as (ns & s1 & _ & Hb).
    destruct v; try discriminate.
    + destruct Hb as (_ & r1 & r2 & _ & _ & Hi & _ & ->).
      simpl in Hd. injection Hd as <-. split; [| reflexivity].
      apply improves_iff in Hi as [Hi | (b & _ & Hlt)]; [assumption |].
      rewrite ltb_nan_l in Hlt by assumption. discriminate.
    + destruct Hb as (_ & r1 & r2 & _ & _ & _ & Hz & ->).
      simpl in Hd. injection Hd as <-.
      destruct (abs_difference r1 r2); discriminate.
  - intros cycles fuel s d vs s' Hd Hn H.
    assert (Hgen : acceptances vs = O /\
                   corpus s' = corpus s /\ diff s' = diff s /\
                   cout s' = cout s).
    { revert cycles s vs s' H Hd.
      apply (Fuzz_loop_run NumNumbers cfg
               (fun s vs s' =>
                  diff s = Some d ->
                  acceptances vs = O /\
                  corpus s' = corpus s /\ diff s' = diff s /\
                  cout s' = cout s)).
      - intros s _. auto.
      - intros s v s1 vs s2 Hb _ IH Hd.
        apply Fuzz_body_Ok in Hb as (ns & s0 & Hm & Hb).
        pose proof (mutate_engine _ _ _ _ _ _ Hm) as [g ->].
        destruct v.
        + destruct Hb as [_ ->]. apply IH. exact Hd.
        + destruct Hb as (_ & r1 & r2 & _ & _ & _ & ->). apply IH. exact Hd.
        + destruct Hb as (_ & r1 & r2 & _ & _ & Hi & _).
          rewrite Hd in Hi. simpl in Hi.
          rewrite ltb_nan_r in Hi by assumption. discriminate.
        + destruct Hb as (_ & r1 & r2 & _ & _ & Hi & _).
          rewrite Hd in Hi. simpl in Hi.
          rewrite ltb_nan_r in Hi by assumption. discriminate. }
    destruct Hgen as (Ha & Hc & Hd' & Ho).
    repeat (split; [first [assumption | idtac] |]); try assumption.
    eapply Fuzz_loop_length; [eassumption |].
    intros Hl. apply last_Some in Hl as [l' ->].
    unfold acceptances in Ha. rewrite List.filter_app, length_app in Ha.
    simpl in Ha. lia.
Qed.

End Further.

(** ** The process *)

(** [main] returns no status but 0 and the process exits with no status but
    1.  With fewer than two expressions it prints the usage text and returns
    without constructing a fuzzer; when there is not even a program name,
    only the first word of that text is printed.  Otherwise it returns only
    after [Fuzz] returned a solution of the two expressions under the
    conditions given on the command line, and it exits only after an
    expression of the command line failed to compile at a candidate, with
    the error report as the last output. *)
Theorem main_returns_zero_and_exits_with_one :
  forall `{ET : ExprTk} `{RS : RandomSource} (argv : list string)
         (cycles fuel : nat),
    ((length argv <= 2)%nat ->
     main argv cycles fuel
     = Ok (Some 0) (upd_cout (usage (argv !! O)) process_start)) /\
    (argv = [] -> usage (argv !! O) = [Str "Usage: "]) /\
    (forall name rest,
       argv = name :: rest ->
       usage (argv !! O)
       = [Str "Usage: "; Str name; Str " EXPR1 EXPR2 [CONDITIONS]"; Endl; Endl;
          Str "The program will attempt to resolve variables such that EXPR1 == EXPR2";
          Endl; Endl]) /\
    (forall r s',
       main argv cycles fuel = Ok r s' ->
       (r = Some 0 \/ r = None) /\
       (r = None -> (2 < length argv)%nat) /\
       ((2 < length argv)%nat -> r = Some 0 ->
        exists ns res1 res2,
          last (corpus s') = Some ns /\
          passes main_NumNumbers (drop 3 argv) ns = true /\
          value_at main_NumNumbers ns (nth 1 argv EmptyString) = Some res1 /\
          value_at main_NumNumbers ns (nth 2 argv EmptyString) = Some res2 /\
          eqb (abs_difference res1 res2) zero = true)) /\
    (forall c s',
       main argv cycles fuel = Exit c s' ->
       c = 1 /\ (2 < length argv)%nat /\
       exists ns e err out,
         parser_compile (bindings main_NumNumbers ns) e = inl err /\
         In e (drop 3 argv
               ++ [nth 1 argv EmptyString; nth 2 argv EmptyString]) /\
         cout s' = out ++ error_report err e) /\
    main argv cycles fuel <> Undefined.
Proof.
  intros ET RS argv cycles fuel.
  split; [| split; [now intros -> | split; [now intros name rest -> |]]].
  { intros Hargc. unfold main. apply Nat.leb_le in Hargc. now rewrite Hargc. }
  unfold main.
  destruct (length argv <=? 2)%nat eqn:Hargc.
  - apply Nat.leb_le in Hargc. split; [| split].
    + intros r s' H. injection H as <- <-.
      split; [now left |]. split; [discriminate | lia].
    + intros c s' H. discriminate.
    + discriminate.
  - apply Nat.leb_gt in Hargc.
    unfold bind. rewrite Fuzz_eq.
    destruct (Fuzz_loop main_NumNumbers (main_fuzzer argv) cycles fuel
                (upd_diff None (constructed main_NumNumbers)))
      as [vs s1 | c1 s1 | |] eqn:HF.
    + assert (Hsol : last vs = Some Solved ->
                     exists ns res1 res2,
                       last (corpus s1) = Some ns /\
                       passes main_NumNumbers (drop 3 argv) ns = true /\
                       value_at main_NumNumbers ns (nth 1 argv EmptyString)
                       = Some res1 /\
                       value_at main_NumNumbers ns (nth 2 argv EmptyString)
                       = Some res2 /\
                       eqb (abs_difference res1 res2) zero = true).
      { intros Hl.
        destruct (Fuzz_loop_solved _ _ _ _ _ _ _ HF Hl)
          as (ns & r1 & r2 & out & H1 & H2 & H3 & H4 & _ & H6 & _).
        exists ns, r1, r2. auto. }
      split; [| split; [| now destruct (last vs) as [[| | |] |]]].
      * intros r s' H.
        assert (Hr : s' = s1 /\ (r = Some 0 -> last vs = Some Solved) /\
                     (r = Some 0 \/ r = None)).
        { destruct (last vs) as [[] |]; injection H as <- <-;
            (split; [reflexivity |]); split; auto; discriminate. }
        destruct Hr as (-> & Hr & Hor).
        split; [assumption |]. split; [intros _; assumption |].
        intros _ H0. apply Hsol. now apply Hr.
      * intros c s' H. now destruct (last vs) as [[| | |] |].
    + split; [intros c s' H; discriminate |]. split; [| discriminate].
      intros c s' H. injection H as <- <-.
      apply Fuzz_loop_Exit in HF as [s0 HF].
      apply Fuzz_body_Exit in HF
        as (-> & ns & s2 & e & err & _ & Hp & _ & Hin & Hc & _).
      split; [reflexivity |]. split; [assumption |].
      exists ns, e, err, (cout s0). auto.
    + exfalso. revert HF. apply Fuzz_loop_defined. discriminate.
    + split; [intros c s' H; discriminate |].
      split; [intros c s' H; discriminate | discriminate].
Qed.

(** * Sample runs of the further properties *)

(** Two results of 3 are well formed and equal: their difference passes the
    test for an exact match. *)
Lemma equal_results_sample :
  eqb (abs_difference (of_Z 3) (of_Z 3)) zero = true.
Proof.
  exact (proj2 (proj1 exact_match_means_equal_results (of_Z 3) (of_Z 3)
                  ltac:(vm_compute; reflexivity)
                  ltac:(vm_compute; reflexivity))
           (conj eq_refl (conj eq_refl eq_refl))).
Defined.

(** The six variables of [main] are bound under six different names. *)
Lemma six_letters_sample :
  NoDup (map fst (bindings 6 (replicate 6 zero))).
Proof.
  exact (proj1 (proj2 (proj2
           (variables_have_distinct_letters 6 (replicate 6 zero)
              ltac:(lia))))).
Defined.

(** The doubles printed for [a = 1, b = 2] are 1 and 2. *)
Lemma toString_sample :
  doubles_of (toString_ns 2 [of_Z 1; of_Z 2] ",") = [of_Z 1; of_Z 2].
Proof.
  exact (proj1 (proj2
           (toString_separates_the_entries 2 [of_Z 1; of_Z 2] ","
              ltac:(lia)))
           eq_refl).
Defined.

(** The script of the sample configuration at [a = 0]. *)
Lemma toScript_sample :
  toScript 1 sample_cfg [zero]
  = flat_map (entry [zero] (String (ascii_of_nat 10) EmptyString)) (seq 0 1)
    ++ [Str (expr1 sample_cfg); Str " == "; Str (expr2 sample_cfg);
        Str (String (ascii_of_nat 10) EmptyString)].
Proof.
  exact (toScript_is_one_line_per_variable 1 sample_cfg [zero] ltac:(lia)).
Defined.

(** After the first pass of the sample run the corpus has two members and
    [getStatic] reads one of them. *)
Lemma getStatic_sample :
  exists ns,
    (N.to_nat (fst (unifSizeT (prng (sample_state 1)))
               mod N.of_nat (length (corpus (sample_state 1))))
     < length (corpus (sample_state 1)))%nat /\
    corpus (sample_state 1)
    !! N.to_nat (fst (unifSizeT (prng (sample_state 1)))
                 mod N.of_nat (length (corpus (sample_state 1))))
    = Some ns /\
    getStatic (sample_state 1)
    = Ok ns (upd_prng (snd (unifSizeT (prng (sample_state 1))))
               (sample_state 1)).
Proof.
  exact (proj2 (@getStatic_reads_a_member sample_source (sample_state 1))
           ltac:(vm_compute; discriminate)).
Defined.

(** Every member of the corpus of the sample run has one slot. *)
Lemma slots_sample :
  Forall (fun ns => length ns = 1%nat) (corpus (sample_state 3)).
Proof.
  exact (proj1 (proj2 (proj2
           (@assignments_keep_their_slots
              small_exprtk sample_source 1 sample_cfg ltac:(lia))))
           3%nat 1%nat [Improved; NotBetter; Improved] (sample_state 3)
           ltac:(vm_compute; reflexivity)).
Defined.

(** The three passes of the sample run all evaluate their candidate: the
    counter is at 3. *)
Lemma iter_sample :
  iter (sample_state 3)
  = (N.of_nat (evaluations [Improved; NotBetter; Improved])
       mod size_t_modulus)%N /\
  (acceptances [Improved; NotBetter; Improved]
   <= evaluations [Improved; NotBetter; Improved])%nat.
Proof.
  exact (@iter_counts_the_evaluations
           small_exprtk sample_source 1 sample_cfg
           3%nat 1%nat [Improved; NotBetter; Improved] (sample_state 3)
           ltac:(vm_compute; reflexivity)).
Defined.

(** The sample run prints two reports in three passes. *)
Lemma output_sample :
  exists reports,
    cout (sample_state 3)
    = cout (@constructed sample_source 1) ++ concat reports /\
    length reports = acceptances [Improved; NotBetter; Improved] /\
    Forall (@acceptance_report small_exprtk 1 sample_cfg) reports /\
    (acceptances [Improved; NotBetter; Improved] = O ->
     cout (sample_state 3) = cout (@constructed sample_source 1)).
Proof.
  exact (@output_is_one_report_per_acceptance
           small_exprtk sample_source 1 sample_cfg
           3%nat 1%nat (@constructed sample_source 1)
           [Improved; NotBetter; Improved] (sample_state 3)
           ltac:(vm_compute; reflexivity)).
Defined.


(** The corpus of the sample run is the seed, then [a = 60] and [a = 3]. *)
Lemma corpus_record_sample :
  @recorded small_exprtk sample_source 1 sample_cfg (sample_state 3).
Proof.
  exact (proj1 (@corpus_records_the_improvements
                  small_exprtk sample_source 1 sample_cfg 3%nat 1%nat)
           [Improved; NotBetter; Improved] (sample_state 3)
           ltac:(vm_compute; reflexivity)).
Defined.

(** On draws of [0.5] the first pass returns [a = 0], which is a solution
    of [a == 0]. *)
Lemma solution_sample :
  exists ns res1 res2 out,
    last (corpus solved_state) = Some ns /\
    @passes small_exprtk 1 (conditions sample_cfg) ns = true /\
    @value_at small_exprtk 1 ns (expr1 sample_cfg) = Some res1 /\
    @value_at small_exprtk 1 ns (expr2 sample_cfg) = Some res2 /\
    diff solved_state = Some (abs_difference res1 res2) /\
    eqb (abs_difference res1 res2) zero = true /\
    cout solved_state = out ++ solution_report 1 sample_cfg ns /\
    (valid res1 = true -> valid res2 = true ->
     is_finite res1 = true /\ is_finite res2 = true /\
     eqb res1 res2 = true).
Proof.
  exact (@a_returned_assignment_is_a_solution
           small_exprtk solving_source 1 sample_cfg
           1%nat 1%nat (@constructed solving_source 1) [Solved] solved_state
           ltac:(vm_compute; reflexivity) eq_refl).
Defined.

(** [main] with one expression prints the usage text and returns 0. *)
Lemma main_usage_sample :
  @main small_exprtk sample_source ["prog"; "a"]%string 1 1
  = Ok (Some 0)
      (upd_cout (usage (["prog"; "a"]%string !! O))
         (@process_start sample_source)).
Proof.
  exact (proj1 (@main_returns_zero_and_exits_with_one
                  small_exprtk sample_source ["prog"; "a"]%string 1%nat 1%nat)
           ltac:(simpl; lia)).
Defined.

(** The first pass of the sample run evaluates its candidate and accepts
    it. *)
Lemma first_acceptance_sample : Improved <> NotBetter.
Proof.
  exact (@first_evaluated_candidate_is_accepted
           small_exprtk sample_source 1 sample_cfg
           3%nat 1%nat (@constructed sample_source 1)
           [Improved; NotBetter; Improved] (sample_state 3)
           ltac:(vm_compute; reflexivity)
           O Improved eq_refl ltac:(intros j Hj; lia)).
Defined.

(** After a first difference of NaN three more passes accept nothing. *)
Lemma nan_stall_sample :
  exists vs s',
    @Fuzz_loop small_exprtk sample_source 1 nan_cfg 3 1 nan_state
    = Ok vs s' /\
    acceptances vs = O /\ length vs = 3%nat /\
    corpus s' = corpus nan_state /\ diff s' = diff nan_state /\
    cout s' = cout nan_state.
Proof.
  eexists _, _. split; [vm_compute; reflexivity |].
  exact (proj2 (@a_nan_difference_is_accepted_first_or_never
                  small_exprtk sample_source 1 nan_cfg)
           3%nat 1%nat nan_state nan _ _
           ltac:(vm_compute; reflexivity) eq_refl
           ltac:(vm_compute; reflexivity)).
Defined.
